(** * Resilient authenticated HTTP client: error taxonomy, token lifecycle
      and single-flight refresh.

    Shallow embedding of [lib/utils/error-handler.ts], [lib/utils/auth.ts]
    and [lib/http.ts].  JavaScript values are modelled by the shapes the code
    inspects: optional fields are [option]s, truthiness is written out,
    [localStorage] is a finite map from keys to strings, numbers are doubles
    with integer values, infinities or NaN, and the event loop is a step function over explicit events. *)

From Stdlib Require Import ZArith Lia Bool List Ascii String.
From Stdlib Require Import DecimalString DecimalZ DecimalPos.
From stdpp Require Import base option list gmap strings.

Local Open Scope string_scope.
Local Open Scope Z_scope.

(** ** JavaScript helpers *)

Module Js.

(** Truthiness of a value that is a string or [undefined]. *)
Definition truthy_str (v : option string) : bool :=
  match v with
  | Some s => negb (String.eqb s "")
  | None => false
  end.

(** [a || b] on strings-or-undefined. *)
Definition or_str (a b : option string) : option string :=
  if truthy_str a then a else b.

(** [v === s] for an optional string against a literal. *)
Definition str_is (v : option string) (s : string) : bool :=
  match v with
  | Some x => String.eqb x s
  | None => false
  end.

(** [v === n] for an optional number against a literal. *)
Definition num_is (v : option Z) (n : Z) : bool :=
  match v with
  | Some x => Z.eqb x n
  | None => false
  end.

(** [String.prototype.includes]. *)
Fixpoint includes (s needle : string) : bool :=
  String.prefix needle s ||
  match s with
  | EmptyString => false
  | String _ rest => includes rest needle
  end.

(** [v?.includes(needle)], falsy when [v] is [undefined]. *)
Definition opt_includes (v : option string) (needle : string) : bool :=
  match v with
  | Some s => includes s needle
  | None => false
  end.

End Js.

(** ** error-handler.ts *)

Module ErrorHandler.
Import Js.

(** Body of an error response: [data.message], [data.error] and the
    field-level [data.errors] map. *)
Record ResponseData := {
  data_message : option string;
  data_error : option string;
  data_errors : option (list (string * string))
}.

Record AxiosResponse := {
  status : Z;
  data : option ResponseData
}.

(** The fields of a thrown object that the handlers read. *)
Record AxiosError := {
  response : option AxiosResponse;
  request : bool;
  code : option string;
  message : option string
}.

Inductive AppErrorClass :=
  | AppErrorBase
  | BadRequestError
  | UnauthorizedError
  | ForbiddenError
  | NotFoundError
  | ConflictError
  | ValidationError
  | InternalServerError.

Record AppError := {
  cls : AppErrorClass;
  app_message : string;
  statusCode : Z;
  isOperational : bool
}.

(** What a handler typed [error: any] can be handed: [null]/[undefined], an
    [AppError] instance, or any other value, of which the handlers read
    four properties; a property the value lacks is [None] (or [false]). *)
Inductive JsError :=
  | JsNullish
  | JsAppError (a : AppError)
  | JsObject (e : AxiosError).

(** [error?.response], [error?.code], [error?.message]. *)
Definition err_response (error : JsError) : option AxiosResponse :=
  match error with
  | JsObject e => response e
  | _ => None
  end.

Definition err_code (error : JsError) : option string :=
  match error with
  | JsObject e => code e
  | _ => None
  end.

Definition err_message (error : JsError) : option string :=
  match error with
  | JsObject e => message e
  | JsAppError a => Some (app_message a)
  | JsNullish => None
  end.

(** [error?.response?.status] *)
Definition err_status (error : JsError) : option Z :=
  status <$> err_response error.

(** [error?.response?.data?.message] *)
Definition err_data_message (error : JsError) : option string :=
  (err_response error ≫= data) ≫= data_message.

(** [error?.response?.data?.errors] is truthy: any object is. *)
Definition err_has_errors (error : JsError) : bool :=
  match (err_response error ≫= data) ≫= data_errors with
  | Some _ => true
  | None => false
  end.

Inductive ErrorCategory :=
  | auth | permission | validation | notfound | conflict
  | network | timeout | server | business | unknown.

Inductive ErrorType :=
  | retryable | non_retryable | business_type | system.

Definition category_eqb (a b : ErrorCategory) : bool :=
  match a, b with
  | auth, auth | permission, permission | validation, validation
  | notfound, notfound | conflict, conflict | network, network
  | timeout, timeout | server, server | business, business
  | unknown, unknown => true
  | _, _ => false
  end.

(** [status && status >= 500] *)
Definition status_ge_500 (st : option Z) : bool :=
  match st with
  | Some s => negb (s =? 0) && (500 <=? s)
  | None => false
  end.

Definition getErrorCategory (error : JsError) : ErrorCategory :=
  let status := err_status error in
  let code := err_code error in
  if num_is status 401 then auth
  else if num_is status 403 then permission
  else if num_is status 422 || err_has_errors error then validation
  else if num_is status 404 then notfound
  else if num_is status 409 then conflict
  else if status_ge_500 status then server
  else if str_is code "ERR_NETWORK"
          || opt_includes (err_message error) "Network Error"
          || negb (bool_decide (is_Some (err_response error)))
       then network
  else if str_is code "ECONNABORTED"
          || opt_includes (err_message error) "timeout"
       then timeout
  else if truthy_str (err_data_message error) then business
  else unknown.

(** [['auth', ...].includes(category)] *)
Definition category_in (l : list ErrorCategory) (c : ErrorCategory) : bool :=
  existsb (category_eqb c) l.

Definition getErrorType (error : JsError) : ErrorType :=
  let category := getErrorCategory error in
  let hasBackendMessage := truthy_str (err_data_message error) in
  if category_eqb category network || category_eqb category timeout
     || category_eqb category server
  then retryable
  else if category_in [auth; permission; validation; notfound; conflict] category
  then non_retryable
  else if hasBackendMessage then business_type
  else system.

Definition isRetryableError (error : JsError) : bool :=
  match getErrorType error with
  | retryable => true
  | _ => false
  end.

Definition isBusinessError (error : JsError) : bool :=
  truthy_str (err_data_message error).

Definition isAuthError (error : JsError) : bool :=
  num_is (err_status error) 401.

Definition isForbiddenError (error : JsError) : bool :=
  num_is (err_status error) 403.

Definition isValidationError (error : JsError) : bool :=
  num_is (err_status error) 422 || err_has_errors error.

Definition isNetworkError (error : JsError) : bool :=
  str_is (err_code error) "ERR_NETWORK"
  || opt_includes (err_message error) "Network Error"
  || negb (bool_decide (is_Some (err_response error))).

Definition isTimeoutError (error : JsError) : bool :=
  str_is (err_code error) "ECONNABORTED"
  || opt_includes (err_message error) "timeout".

(** Result of a call that may throw a [TypeError]. *)
Inductive Thrown (A : Type) :=
  | Returns (a : A)
  | TypeError.
Arguments Returns {A} a.
Arguments TypeError {A}.

Definition mkAppError (c : AppErrorClass) (m : string) (sc : Z) (op : bool)
  : AppError :=
  {| cls := c; app_message := m; statusCode := sc; isOperational := op |}.

(** The [switch (status)] of [parseApiError], with each subclass constructor
    passing its own status code to [AppError]. *)
Definition error_for_status (st : Z) (m : string) : AppError :=
  if st =? 400 then mkAppError BadRequestError m 400 true
  else if st =? 401 then mkAppError UnauthorizedError m 401 true
  else if st =? 403 then mkAppError ForbiddenError m 403 true
  else if st =? 404 then mkAppError NotFoundError m 404 true
  else if st =? 409 then mkAppError ConflictError m 409 true
  else if st =? 422 then mkAppError ValidationError m 422 true
  else mkAppError InternalServerError m 500 true.

(** [parseApiError] on an object that is not an [AppError]. *)
Definition parse_object (e : AxiosError) : AppError :=
  match response e with
  | Some r =>
      let d := data r in
      let m := or_str (or_str (d ≫= data_message) (d ≫= data_error))
                      (Some "An error occurred") in
      error_for_status (status r) (default "An error occurred" m)
  | None =>
      if request e
      then mkAppError AppErrorBase "Network Error - No response from server" 0 false
      else mkAppError AppErrorBase
             (default "An unexpected error occurred"
                (or_str (message e) (Some "An unexpected error occurred")))
             500 false
  end.

(** [parseApiError]: [instanceof] is safe on any value, the following
    [error.response] is a property read and throws on [null]/[undefined]. *)
Definition parseApiError (error : JsError) : Thrown AppError :=
  match error with
  | JsAppError a => Returns a
  | JsNullish => TypeError
  | JsObject e => Returns (parse_object e)
  end.

(** [parseApiError(parseApiError(e))]: the inner call's exception
    propagates. *)
Definition parse_twice (error : JsError) : Thrown AppError :=
  match parseApiError error with
  | Returns a => parseApiError (JsAppError a)
  | TypeError => TypeError
  end.

(** *** The taxonomy as the design document words it *)

(** First row of an ordered predicate table that holds of [x]. *)
Definition first_match {A C : Type} (table : list ((A -> bool) * C))
  (fallback : C) (x : A) : C :=
  match find (fun row => fst row x) table with
  | Some row => snd row
  | None => fallback
  end.

(** The ten categories in their documented order; [unknown] is the
    fallback. *)
Definition priority_table : list ((JsError -> bool) * ErrorCategory) :=
  [ (isAuthError, auth);
    (isForbiddenError, permission);
    (isValidationError, validation);
    (fun e => num_is (err_status e) 404, notfound);
    (fun e => num_is (err_status e) 409, conflict);
    (fun e => status_ge_500 (err_status e), server);
    (isNetworkError, network);
    (isTimeoutError, timeout);
    (isBusinessError, business) ].

(** Type derivation from the category and the presence of a server
    message. *)
Definition type_of_category (c : ErrorCategory) (hasMessage : bool)
  : ErrorType :=
  match c with
  | network | timeout | server => retryable
  | auth | permission | validation | notfound | conflict => non_retryable
  | business | unknown => if hasMessage then business_type else system
  end.

(** What axios throws when the request exceeds the configured timeout: no
    response, code [ECONNABORTED]. *)
Definition axios_timeout : JsError :=
  JsObject {| response := None; request := true;
              code := Some "ECONNABORTED";
              message := Some "timeout of 30000ms exceeded" |}.

End ErrorHandler.

(** ** auth.ts *)

Module Auth.
Import Js.

(** A JavaScript number as the token code meets it: [NaN], an infinity,
    or a double whose value is an integer ([JNum 0] stands for both
    zeroes). *)
Inductive jsnum :=
  | NaN
  | Infinity (negative : bool)
  | JNum (z : Z).

(** Rounding of a natural number to 53 significant bits, to nearest, ties
    to even. *)
Definition round53 (n : Z) : Z :=
  if n <? 2 ^ 53 then n
  else
    let sh := Z.log2 n - 52 in
    let q := n / 2 ^ sh in
    let r := n mod 2 ^ sh in
    let half := 2 ^ (sh - 1) in
    if (half <? r) || ((r =? half) && Z.odd q) then (q + 1) * 2 ^ sh
    else q * 2 ^ sh.

(** The Number value for an integer: the nearest double, an infinity from
    [2 ^ 1024] on. *)
Definition nearest_double (z : Z) : jsnum :=
  let m := round53 (Z.abs z) in
  if 2 ^ 1024 <=? m then Infinity (z <? 0)
  else JNum (if z <? 0 then - m else m).

(** [x * y], [x - y] and [x >= y] on numbers. *)
Definition num_mul (x y : jsnum) : jsnum :=
  match x, y with
  | NaN, _ | _, NaN => NaN
  | JNum a, JNum b => nearest_double (a * b)
  | Infinity s, JNum b => if b =? 0 then NaN else Infinity (xorb s (b <? 0))
  | JNum a, Infinity s => if a =? 0 then NaN else Infinity (xorb s (a <? 0))
  | Infinity s, Infinity s' => Infinity (xorb s s')
  end.

Definition num_sub (x y : jsnum) : jsnum :=
  match x, y with
  | NaN, _ | _, NaN => NaN
  | JNum a, JNum b => nearest_double (a - b)
  | Infinity s, JNum _ => Infinity s
  | JNum _, Infinity s => Infinity (negb s)
  | Infinity s, Infinity s' => if Bool.eqb s s' then NaN else Infinity s
  end.

Definition num_ge (x y : jsnum) : bool :=
  match x, y with
  | NaN, _ | _, NaN => false
  | JNum a, JNum b => b <=? a
  | Infinity s, JNum _ => negb s
  | JNum _, Infinity s => s
  | Infinity s, Infinity s' => negb s || s'
  end.

(** An integer in decimal digits. *)
Definition decimal (z : Z) : string :=
  NilEmpty.string_of_int (Z.to_int z).


(** [y] is a decimal that denotes the double [v]. *)
Definition reads_back (v y : Z) : bool :=
  match nearest_double y with
  | JNum x => x =? v
  | _ => false
  end.

(** The decimal with the fewest significant digits that denotes the
    positive double [v], of [n] digits: with [k] digits there are the
    multiples of [10 ^ (n - k)] just below and just above [v]; the nearer
    one is taken, the one with the even digit string when they are equally
    near. *)
Fixpoint shortest_from (fuel : nat) (k n v : Z) : Z :=
  match fuel with
  | O => v
  | S fuel' =>
      let unit := 10 ^ (n - k) in
      let lo := v / unit * unit in
      let hi := lo + unit in
      match reads_back v lo, reads_back v hi with
      | true, true =>
          if v - lo <? hi - v then lo
          else if hi - v <? v - lo then hi
          else if Z.even (v / unit) then lo else hi
      | true, false => lo
      | false, true => hi
      | false, false => shortest_from fuel' (k + 1) n v
      end
  end.

Definition shortest (v : Z) : Z :=
  let n := String.length (decimal v) in
  shortest_from n 1 (Z.of_nat n) v.

Fixpoint strip_zeros (s : string) : string :=
  match s with
  | EmptyString => EmptyString
  | String c rest =>
      let rest' := strip_zeros rest in
      if Ascii.eqb c "0" && String.eqb rest' "" then "" else String c rest'
  end.

(** Exponent notation: the first digit, the other significant digits
    after a point, and the exponent. *)
Definition exponential (y : Z) : string :=
  match decimal y with
  | String c rest =>
      let frac := strip_zeros rest in
      String c ((if String.eqb frac "" then "" else "." ++ frac)
                ++ "e+" ++ decimal (Z.of_nat (String.length rest)))
  | EmptyString => ""
  end.

Definition positive_toString (v : Z) : string :=
  let y := shortest v in
  if y <? 10 ^ 21 then decimal y else exponential y.

(** [Number.prototype.toString]: the shortest decimal that denotes the
    number, written out in full below [10 ^ 21] and in exponent notation
    from there on. *)
Definition toString (x : jsnum) : string :=
  match x with
  | NaN => "NaN"
  | Infinity s => if s then "-Infinity" else "Infinity"
  | JNum z =>
      if z =? 0 then "0"
      else if z <? 0 then "-" ++ positive_toString (- z)
      else positive_toString z
  end.

Definition digit_val (c : ascii) : option Z :=
  let n := Z.of_N (N_of_ascii c) in
  if (48 <=? n) && (n <=? 57) then Some (n - 48) else None.

(** Value of the longest prefix of decimal digits, [None] when there is no
    digit at all. *)
Fixpoint parse_digits (s : string) (acc : option Z) : option Z :=
  match s with
  | String c rest =>
      match digit_val c with
      | Some d => parse_digits rest (Some (10 * default 0 acc + d))
      | None => acc
      end
  | EmptyString => acc
  end.

Definition is_space (c : ascii) : bool :=
  let n := N_of_ascii c in
  ((9 <=? n) && (n <=? 13))%N || (n =? 32)%N.

Fixpoint skip_ws (s : string) : string :=
  match s with
  | String c rest => if is_space c then skip_ws rest else s
  | EmptyString => s
  end.

Definition num_of (v : option Z) : jsnum :=
  match v with
  | Some z => nearest_double z
  | None => NaN
  end.

(** [parseInt(s, 10)]: leading white space and one sign are skipped, the
    digits that follow are read, anything after them is ignored; the
    result is the Number value for the integer read. *)
Definition parseInt (s : string) : jsnum :=
  match skip_ws s with
  | String c rest =>
      if Ascii.eqb c "-" then num_of (Z.opp <$> parse_digits rest None)
      else if Ascii.eqb c "+" then num_of (parse_digits rest None)
      else num_of (parse_digits (String c rest) None)
  | EmptyString => NaN
  end.

(** [!v] for a number-or-null. *)
Definition falsy_num (v : option jsnum) : bool :=
  match v with
  | Some (JNum z) => z =? 0
  | Some (Infinity _) => false
  | Some NaN => true
  | None => true
  end.




(** The [exp] claim of a payload, when it is an integer literal. *)
Record JwtPayload := { exp : option Z }.

(** What the code takes from the JavaScript runtime: the opaque user record
    with [JSON.stringify], [encodeURIComponent], and the decoding done by
    [parseJwt] ([atob], [decodeURIComponent], [JSON.parse]), which yields
    [None] where [parseJwt] catches an exception and returns [null]. *)
Class Runtime := {
  User : Type;
  JSON_stringify : User -> string;
  encodeURIComponent : string -> string;
  parseJwt : string -> option JwtPayload
}.

Definition AUTH_TOKEN_KEY := "auth_token".
Definition REFRESH_TOKEN_KEY := "refresh_token".
Definition TOKEN_EXPIRY_KEY := "token_expiry".
Definition USER_KEY := "user_data".

Definition REFRESH_THRESHOLD : Z := 5 * 60 * 1000.

(** The browser objects the module touches.  [navigations] lists the values
    assigned to [window.location.href], oldest first. *)
Record Window := {
  localStorage : gmap string string;
  pathname : string;
  navigations : list string
}.

(** [None] is the server side, where [typeof window === 'undefined']. *)
Abbreviation World := (option Window).

Definition setItem (k v : string) (b : Window) : Window :=
  {| localStorage := <[k := v]> (localStorage b);
     pathname := pathname b;
     navigations := navigations b |}.

Definition removeItem (k : string) (b : Window) : Window :=
  {| localStorage := delete k (localStorage b);
     pathname := pathname b;
     navigations := navigations b |}.

Definition set_href (url : string) (b : Window) : Window :=
  {| localStorage := localStorage b;
     pathname := pathname b;
     navigations := navigations b ++ [url] |}.

Definition getItem (k : string) (w : World) : option string :=
  w ≫= (fun b => localStorage b !! k).

Section WithRuntime.
Context `{Runtime}.

Record AuthResponseDto := {
  accessToken : string;
  refreshToken : option string;
  user : option User
}.

(** [JSON.parse] reads the literal as the nearest double; the product is
    rounded again. *)
Definition getTokenExpiryFromJwt (token : string) : option jsnum :=
  match parseJwt token with
  | Some payload =>
      match nearest_double <$> exp payload with
      | Some e => if falsy_num (Some e) then None
                  else Some (num_mul e (JNum 1000))
      | None => None
      end
  | None => None
  end.

Definition storeAuthData (d : AuthResponseDto) (w : World) : World :=
  match w with
  | None => None
  | Some b =>
      let b1 := setItem AUTH_TOKEN_KEY (accessToken d) b in
      let b2 := if truthy_str (refreshToken d)
                then setItem REFRESH_TOKEN_KEY (default "" (refreshToken d)) b1
                else b1 in
      let expiryTime := getTokenExpiryFromJwt (accessToken d) in
      let b3 := match expiryTime with
                | Some t => if falsy_num (Some t) then b2
                            else setItem TOKEN_EXPIRY_KEY (toString t) b2
                | None => b2
                end in
      let b4 := match user d with
                | Some u => setItem USER_KEY (JSON_stringify u) b3
                | None => b3
                end in
      Some b4
  end.

Definition getAccessToken (w : World) : option string :=
  getItem AUTH_TOKEN_KEY w.

Definition getRefreshToken (w : World) : option string :=
  getItem REFRESH_TOKEN_KEY w.

Definition getTokenExpiry (w : World) : option jsnum :=
  match getItem TOKEN_EXPIRY_KEY w with
  | Some expiry =>
      if truthy_str (Some expiry) then Some (parseInt expiry) else None
  | None => None
  end.

Definition isTokenExpiringSoon (w : World) (now : Z) : bool :=
  let expiry := getTokenExpiry w in
  if falsy_num expiry then false
  else match expiry with
       | Some e => num_ge (JNum now) (num_sub e (JNum REFRESH_THRESHOLD))
       | None => false
       end.

Definition isTokenExpired (w : World) (now : Z) : bool :=
  let expiry := getTokenExpiry w in
  if falsy_num expiry then false
  else match expiry with
       | Some e => num_ge (JNum now) e
       | None => false
       end.

Definition isAuthenticated (w : World) (now : Z) : bool :=
  let token := getAccessToken w in
  if negb (truthy_str token) then false
  else if isTokenExpired w now then false
  else true.

Definition clearAuthData (w : World) : World :=
  (fun b => removeItem USER_KEY
              (removeItem TOKEN_EXPIRY_KEY
                 (removeItem REFRESH_TOKEN_KEY
                    (removeItem AUTH_TOKEN_KEY b)))) <$> w.

(** The URL [redirectToLogin] navigates to. *)
Definition login_url (returnUrl : option string) : string :=
  if truthy_str returnUrl
  then "/auth/login?returnUrl=" ++ encodeURIComponent (default "" returnUrl)
  else "/auth/login".

Definition redirectToLogin (returnUrl : option string) (w : World) : World :=
  match w with
  | None => None
  | Some _ => set_href (login_url returnUrl) <$> clearAuthData w
  end.

(** *** Wholesale replacement, as the design document words it *)

(** Every persisted field of [w'] comes from the credential set [d]. *)
Definition replaced_wholesale (d : AuthResponseDto) (w' : World) : Prop :=
  getItem AUTH_TOKEN_KEY w' = Some (accessToken d)
  /\ getItem REFRESH_TOKEN_KEY w' = refreshToken d
  /\ getItem TOKEN_EXPIRY_KEY w'
     = toString <$> getTokenExpiryFromJwt (accessToken d)
  /\ getItem USER_KEY w' = JSON_stringify <$> user d.



End WithRuntime.

End Auth.

(** ** http.ts: the interceptors on the event loop *)

Module Http.
Import Js ErrorHandler Auth.

(** The two closures pushed on [refreshSubscribers]: the one of the request
    interceptor, which sets the header and resolves with the config, and the
    one of the response interceptor, which sets the header and resolves with
    [axiosInstance(originalRequest)].  Each captures the config of request
    [r]. *)
Inductive Subscriber :=
  | SubRequest (r : nat)
  | SubRetry (r : nat).

(** A call of [refreshToken()] that its caller awaits: the POST to the
    refresh endpoint is outstanding, or the function has returned. *)
Inductive RefreshCall :=
  | PostPending
  | Returned (newToken : option string).

(** Where the promise chain of a request stands. *)
Inductive Phase :=
  | Queued
  | ReqAwaitRefresh (c : RefreshCall)
  | ReqWaiting
  | InTransport
  | RespAwaitRefresh (error : AxiosError) (c : RefreshCall)
  | RespWaiting
  | Fulfilled (resp : AxiosResponse)
  | Rejected (err : Thrown AppError).

(** The config object of a request, its chain, and two counters that only
    record history: how often [_retry = true] was executed on it and how
    often it was handed to [axiosInstance] again. *)
Record Request := {
  Authorization : option string;
  _retry : bool;
  phase : Phase;
  retry_sets : nat;
  reissues : nat
}.

Definition new_request : Request :=
  {| Authorization := None; _retry := false; phase := Queued;
     retry_sets := 0; reissues := 0 |}.

Definition set_phase (p : Phase) (q : Request) : Request :=
  {| Authorization := Authorization q; _retry := _retry q; phase := p;
     retry_sets := retry_sets q; reissues := reissues q |}.

Definition set_Authorization (h : string) (q : Request) : Request :=
  {| Authorization := Some h; _retry := _retry q; phase := phase q;
     retry_sets := retry_sets q; reissues := reissues q |}.

Definition mark_retry (q : Request) : Request :=
  {| Authorization := Authorization q; _retry := true; phase := phase q;
     retry_sets := S (retry_sets q); reissues := reissues q |}.

(** [axiosInstance(originalRequest)]: the same config enters the request
    interceptor again. *)
Definition reissue (q : Request) : Request :=
  {| Authorization := Authorization q; _retry := _retry q; phase := phase q;
     retry_sets := retry_sets q; reissues := S (reissues q) |}.

Definition bearer (token : string) : string := "Bearer " ++ token.

Section WithRuntime.
Context `{Runtime}.

(** What the refresh endpoint answers: a body (possibly without one, or
    with an empty [accessToken]), or a failure of the call. *)
Inductive RefreshOutcome :=
  | PostOk (body : option AuthResponseDto)
  | PostFails.

(** Module state of [http.ts] with the browser, the requests alive, and two
    history counters: POSTs to the refresh endpoint started, and those not
    yet settled. *)
Record State := {
  win : World;
  isRefreshing : bool;
  refreshSubscribers : list Subscriber;
  requests : gmap nat Request;
  exchanges : nat;
  inflight : nat
}.

Definition initial (w : World) : State :=
  {| win := w; isRefreshing := false; refreshSubscribers := [];
     requests := ∅; exchanges := 0; inflight := 0 |}.

Definition set_win (w : World) (st : State) : State :=
  {| win := w; isRefreshing := isRefreshing st;
     refreshSubscribers := refreshSubscribers st; requests := requests st;
     exchanges := exchanges st; inflight := inflight st |}.

Definition set_isRefreshing (v : bool) (st : State) : State :=
  {| win := win st; isRefreshing := v;
     refreshSubscribers := refreshSubscribers st; requests := requests st;
     exchanges := exchanges st; inflight := inflight st |}.

Definition set_subscribers (l : list Subscriber) (st : State) : State :=
  {| win := win st; isRefreshing := isRefreshing st;
     refreshSubscribers := l; requests := requests st;
     exchanges := exchanges st; inflight := inflight st |}.

Definition set_requests (m : gmap nat Request) (st : State) : State :=
  {| win := win st; isRefreshing := isRefreshing st;
     refreshSubscribers := refreshSubscribers st; requests := m;
     exchanges := exchanges st; inflight := inflight st |}.

Definition update_request (r : nat) (f : Request -> Request) (st : State)
  : State :=
  set_requests (alter f r (requests st)) st.

Definition post_started (st : State) : State :=
  {| win := win st; isRefreshing := isRefreshing st;
     refreshSubscribers := refreshSubscribers st; requests := requests st;
     exchanges := S (exchanges st); inflight := S (inflight st) |}.

Definition post_settled (st : State) : State :=
  {| win := win st; isRefreshing := isRefreshing st;
     refreshSubscribers := refreshSubscribers st; requests := requests st;
     exchanges := exchanges st; inflight := Nat.pred (inflight st) |}.

Definition subscribeTokenRefresh (callback : Subscriber) (st : State) : State :=
  set_subscribers (refreshSubscribers st ++ [callback]) st.

(** Body of the subscriber pushed at line 106: the header is written, and
    [resolve(config)] lets a chain that waits go on to the transport. *)
Definition resolve_config (token : string) (q : Request) : Request :=
  let q' := set_Authorization (bearer token) q in
  match phase q with
  | ReqWaiting => set_phase InTransport q'
  | _ => q'
  end.

(** Body of the subscriber pushed at line 138: the header is written, the
    request is issued again, and [resolve] hands a waiting chain over to the
    new attempt. *)
Definition resolve_retry (token : string) (q : Request) : Request :=
  let q' := reissue (set_Authorization (bearer token) q) in
  match phase q with
  | RespWaiting => set_phase Queued q'
  | _ => q'
  end.

Definition call_subscriber (token : string) (m : gmap nat Request)
  (callback : Subscriber) : gmap nat Request :=
  match callback with
  | SubRequest r => alter (resolve_config token) r m
  | SubRetry r => alter (resolve_retry token) r m
  end.

Definition onTokenRefreshed (token : string) (st : State) : State :=
  set_subscribers []
    (set_requests
       (fold_left (call_subscriber token) (refreshSubscribers st) (requests st))
       st).

(** [refreshToken()] up to its first suspension: without a refresh token it
    returns [null] at once, otherwise the POST is sent. *)
Definition refreshToken_call (st : State) : State * RefreshCall :=
  if truthy_str (getRefreshToken (win st))
  then (post_started st, PostPending)
  else (st, Returned None).

(** [refreshToken()] after the POST settled. *)
Definition refreshToken_settle (o : RefreshOutcome) (st : State)
  : State * RefreshCall :=
  let st' := post_settled st in
  match o with
  | PostOk (Some body) =>
      if truthy_str (Some (accessToken body))
      then (set_win (storeAuthData body (win st')) st',
            Returned (Some (accessToken body)))
      else (st', Returned None)
  | PostOk None => (st', Returned None)
  | PostFails => (st', Returned None)
  end.

(** [typeof window !== 'undefined' ? window.location.pathname : undefined] *)
Definition current_path (w : World) : option string :=
  pathname <$> w.

Definition redirect (st : State) : State :=
  set_win (redirectToLogin (current_path (win st)) (win st)) st.

(** Request interceptor, from its entry to its first suspension or return. *)
Definition request_interceptor (r : nat) (now : Z) (st : State) : State :=
  let token := getAccessToken (win st) in
  if truthy_str token then
    if isTokenExpiringSoon (win st) now && negb (isRefreshing st) then
      let '(st1, c) := refreshToken_call (set_isRefreshing true st) in
      update_request r (set_phase (ReqAwaitRefresh c)) st1
    else if isRefreshing st then
      update_request r (set_phase ReqWaiting)
        (subscribeTokenRefresh (SubRequest r) st)
    else
      update_request r
        (fun q => set_phase InTransport
                    (set_Authorization (bearer (default "" token)) q)) st
  else update_request r (set_phase InTransport) st.

(** Request interceptor, after [await refreshToken()]. *)
Definition request_interceptor_resume (r : nat) (newToken : option string)
  (st : State) : State :=
  let st1 :=
    if truthy_str newToken then
      onTokenRefreshed (default "" newToken)
        (update_request r (set_Authorization (bearer (default "" newToken))) st)
    else redirect st in
  update_request r (set_phase InTransport) (set_isRefreshing false st1).

(** Error handler of the response interceptor, to its first suspension or
    return. *)
Definition response_error (r : nat) (error : AxiosError) (q : Request)
  (st : State) : State :=
  if num_is (status <$> response error) 401 && negb (_retry q) then
    let st0 := update_request r mark_retry st in
    if isRefreshing st0 then
      update_request r (set_phase RespWaiting)
        (subscribeTokenRefresh (SubRetry r) st0)
    else
      let '(st1, c) := refreshToken_call (set_isRefreshing true st0) in
      update_request r (set_phase (RespAwaitRefresh error c)) st1
  else
    update_request r (set_phase (Rejected (parseApiError (JsObject error)))) st.

(** Error handler of the response interceptor, after
    [await refreshToken()]. *)
Definition response_error_resume (r : nat) (error : AxiosError)
  (newToken : option string) (st : State) : State :=
  if truthy_str newToken then
    let st1 :=
      onTokenRefreshed (default "" newToken)
        (update_request r (set_Authorization (bearer (default "" newToken))) st) in
    set_isRefreshing false
      (update_request r (fun q => set_phase Queued (reissue q)) st1)
  else
    update_request r (set_phase (Rejected (parseApiError (JsObject error))))
      (set_isRefreshing false (redirect st)).

(** What the event loop can run next. *)
Inductive Event :=
  | Call (r : nat)
  | RunRequestInterceptor (r : nat) (now : Z)
  | RefreshResponds (r : nat) (o : RefreshOutcome)
  | Continue (r : nat)
  | TransportResponds (r : nat) (resp : AxiosResponse)
  | TransportFails (r : nat) (error : AxiosError).

(** One turn of the event loop.  An event that the state does not enable
    leaves it as it is. *)
Definition step (st : State) (ev : Event) : State :=
  match ev with
  | Call r =>
      match requests st !! r with
      | None => set_requests (<[r := new_request]> (requests st)) st
      | Some _ => st
      end
  | RunRequestInterceptor r now =>
      match phase <$> requests st !! r with
      | Some Queued => request_interceptor r now st
      | _ => st
      end
  | RefreshResponds r o =>
      match phase <$> requests st !! r with
      | Some (ReqAwaitRefresh PostPending) =>
          let '(st1, c) := refreshToken_settle o st in
          update_request r (set_phase (ReqAwaitRefresh c)) st1
      | Some (RespAwaitRefresh error PostPending) =>
          let '(st1, c) := refreshToken_settle o st in
          update_request r (set_phase (RespAwaitRefresh error c)) st1
      | _ => st
      end
  | Continue r =>
      match phase <$> requests st !! r with
      | Some (ReqAwaitRefresh (Returned newToken)) =>
          request_interceptor_resume r newToken st
      | Some (RespAwaitRefresh error (Returned newToken)) =>
          response_error_resume r error newToken st
      | _ => st
      end
  | TransportResponds r resp =>
      match phase <$> requests st !! r with
      | Some InTransport => update_request r (set_phase (Fulfilled resp)) st
      | _ => st
      end
  | TransportFails r error =>
      match requests st !! r with
      | Some q =>
          match phase q with
          | InTransport => response_error r error q st
          | _ => st
          end
      | None => st
      end
  end.

Definition run (evs : list Event) (st : State) : State :=
  fold_left step evs st.

End WithRuntime.

End Http.

(** ** A runtime to evaluate the model on *)

Module Demo.
Import Js ErrorHandler Auth Http.

(** Tokens of the form [exp=<digits>] decode to a payload with that expiry
    claim, every other token fails to decode; users are their own JSON and
    URL encoding is the identity. *)
Definition demo_parseJwt (token : string) : option JwtPayload :=
  if String.prefix "exp=" token
  then Some {| exp := parse_digits (String.substring 4 (String.length token - 4) token) None |}
  else None.

#[export] Instance demo_runtime : Runtime :=
  {| User := string;
     JSON_stringify := fun u => u;
     encodeURIComponent := fun s => s;
     parseJwt := demo_parseJwt |}.

Definition browser (entries : list (string * string)) : Window :=
  {| localStorage := list_to_map entries;
     pathname := "/admin/blogs";
     navigations := [] |}.

Definition credentials (token : string) (refresh user : option string)
  : @AuthResponseDto demo_runtime :=
  {| accessToken := token; refreshToken := refresh; user := user |}.

(** A session whose access token expires at 2000 s, that is 2000000 ms. *)
Definition session_2000 : World :=
  storeAuthData (credentials "exp=2000" (Some "refresh-old") (Some "alice"))
                (Some (browser [])).

(** A credential set with nothing but an access token that does not
    decode. *)
Definition opaque_credentials : AuthResponseDto :=
  credentials "opaque-token" None None.

(** A browser whose token expires at 2000000 ms, with a refresh token. *)
Definition near_expiry : World :=
  Some (browser [("auth_token", "exp=2000"); ("refresh_token", "refresh-old");
                 ("token_expiry", "2000000")]).

(** The session left by storing, in an empty browser, a credential set
    that has no refresh token: the access token and its expiry only. *)
Definition near_expiry_no_refresh : World :=
  storeAuthData (credentials "exp=2000" None None) (Some (browser [])).

(** A browser whose token is far from expiry. *)
Definition far_from_expiry : World :=
  Some (browser [("auth_token", "exp=9000"); ("refresh_token", "refresh-old");
                 ("token_expiry", "9000000")]).

(** What a successful refresh returns. *)
Definition refreshed : AuthResponseDto :=
  credentials "exp=9000" (Some "refresh-new") None.

(** A 401 answer of the server. *)
Definition unauthorized : AxiosError :=
  {| response := Some {| status := 401; data := None |};
     request := true; code := Some "ERR_BAD_REQUEST";
     message := Some "Request failed with status code 401" |}.

End Demo.

(** ** Invariants and schedules of the interceptors *)

Module HttpInv.
Import Js ErrorHandler Auth Http.

(** The chain stands at an [await refreshToken()]. *)
Definition awaiting (p : Phase) : bool :=
  match p with
  | ReqAwaitRefresh _ | RespAwaitRefresh _ _ => true
  | _ => false
  end.

(** ... and the POST of that call is still outstanding. *)
Definition posting (p : Phase) : bool :=
  match p with
  | ReqAwaitRefresh PostPending | RespAwaitRefresh _ PostPending => true
  | _ => false
  end.

Definition resp_awaiting (p : Phase) : bool :=
  match p with
  | RespAwaitRefresh _ _ => true
  | _ => false
  end.

(** Number of retry closures for request [r] on the subscriber list. *)
Fixpoint retry_subscriptions (r : nat) (subs : list Subscriber) : nat :=
  match subs with
  | [] => 0
  | SubRetry r' :: rest =>
      (if decide (r' = r) then 1 else 0) + retry_subscriptions r rest
  | SubRequest _ :: rest => retry_subscriptions r rest
  end.

(** Retries of [r] that may still be issued: its closures on the list, and
    its own continuation when it leads a refresh from the response
    interceptor. *)
Definition pending_retries (r : nat) (q : Request) (subs : list Subscriber)
  : nat :=
  (retry_subscriptions r subs + if resp_awaiting (phase q) then 1 else 0)%nat.

Definition retry_budget (q : Request) : nat :=
  if _retry q then 1%nat else 0%nat.

(** What one subscriber does to the config of request [r]. *)
Definition apply_sub (token : string) (r : nat) (q : Request)
  (callback : Subscriber) : Request :=
  match callback with
  | SubRequest r' => if decide (r' = r) then resolve_config token q else q
  | SubRetry r' => if decide (r' = r) then resolve_retry token q else q
  end.

Section WithRuntime.
Context `{Runtime}.

(** Single flight: while [isRefreshing] is set exactly one chain awaits
    [refreshToken()] and at most its POST is outstanding; while it is clear
    no chain awaits and no POST is outstanding. *)
Definition single_flight_on (refreshing : bool) (m : gmap nat Request)
  (outstanding : nat) : Prop :=
  if refreshing then
    exists r q,
      m !! r = Some q
      /\ awaiting (phase q) = true
      /\ (forall r' q', m !! r' = Some q' -> awaiting (phase q') = true -> r' = r)
      /\ outstanding = (if posting (phase q) then 1 else 0)%nat
  else
    outstanding = 0%nat
    /\ forall r q, m !! r = Some q -> awaiting (phase q) = false.

Definition single_flight (st : State) : Prop :=
  single_flight_on (isRefreshing st) (requests st) (inflight st).

(** At most one retry: the flag was set as often as it says, and retries
    issued plus retries still possible stay within the budget the flag
    gives. *)
Definition retry_bounded_on (m : gmap nat Request) (subs : list Subscriber)
  : Prop :=
  forall r,
    match m !! r with
    | Some q =>
        retry_sets q = retry_budget q
        /\ (reissues q + pending_retries r q subs <= retry_budget q)%nat
    | None => retry_subscriptions r subs = 0%nat
    end.

Definition retry_bounded (st : State) : Prop :=
  retry_bounded_on (requests st) (refreshSubscribers st).

(** [N] concurrent sends around one proactive refresh: all are issued, the
    interceptor of [leader] runs first at time [now], those of [early] run
    while the POST is outstanding, the POST settles with [o], those of
    [late] run before the leader's continuation, which runs last. *)
Definition followers (l : list (nat * Z)) : list Event :=
  (fun rt => RunRequestInterceptor (fst rt) (snd rt)) <$> l.

Definition concurrent_sends (leader : nat) (now : Z) (early : list (nat * Z))
  (o : RefreshOutcome) (late : list (nat * Z)) : list Event :=
  ((Call <$> (leader :: (fst <$> (early ++ late))))
   ++ [RunRequestInterceptor leader now]
   ++ followers early
   ++ [RefreshResponds leader o]
   ++ followers late
   ++ [Continue leader])%list.

(** A proactive refresh led by [leader] is under way: the flag is set, one
    POST was started, the chains of [waiting] are subscribed in that order
    and those of [queued] have not run yet. *)
Definition refreshing (st : State) (leader : nat) (c : RefreshCall)
  (waiting queued : list nat) : Prop :=
  isRefreshing st = true
  /\ truthy_str (getAccessToken (win st)) = true
  /\ exchanges st = 1%nat
  /\ refreshSubscribers st = SubRequest <$> waiting
  /\ (exists q, requests st !! leader = Some q
                /\ phase q = ReqAwaitRefresh c)
  /\ (forall r, r ∈ waiting ->
                exists q, requests st !! r = Some q /\ phase q = ReqWaiting)
  /\ (forall r, r ∈ queued ->
                exists q, requests st !! r = Some q /\ phase q = Queued).

(** The refresh endpoint produced a usable access token. *)
Definition produced (o : RefreshOutcome) : option string :=
  match o with
  | PostOk (Some body) =>
      if truthy_str (Some (accessToken body)) then Some (accessToken body)
      else None
  | _ => None
  end.

(** The request went to the transport carrying [token]. *)
Definition sent_with (token : string) (st : State) (r : nat) : Prop :=
  exists q, requests st !! r = Some q
            /\ phase q = InTransport
            /\ Authorization q = Some (bearer token).

(** The session-ended signal: the login URL with the current path as
    return URL. *)
Definition session_ended_signal (b : Window) : string :=
  "/auth/login?returnUrl=" ++ encodeURIComponent (pathname b).

Definition credentials_cleared (w : World) : Prop :=
  getItem AUTH_TOKEN_KEY w = None
  /\ getItem REFRESH_TOKEN_KEY w = None
  /\ getItem TOKEN_EXPIRY_KEY w = None
  /\ getItem USER_KEY w = None.

(** The chain of [r] was settled with a rejection. *)
Definition rejected (st : State) (r : nat) : Prop :=
  exists q err, requests st !! r = Some q /\ phase q = Rejected err.

End WithRuntime.

End HttpInv.

(** ** Scenarios on the demo runtime *)

Module Scenarios.
Import Js ErrorHandler Auth Http HttpInv Demo.

(** Three sends around one successful refresh: request 1 leads, request 2
    arrives while the POST is outstanding, request 3 after it settled. *)
Definition three_sends : list Event :=
  concurrent_sends 1 1800000 [(2%nat, 1800001)] (PostOk (Some refreshed))
    [(3%nat, 1800002)].

(** Request 1 leads a refresh and request 2 waits for it. *)
Definition leader_and_waiter : State :=
  run [Call 1; Call 2; RunRequestInterceptor 1 1800000;
       RunRequestInterceptor 2 1800001]
      (initial near_expiry).

Definition leading_request : Request :=
  {| Authorization := None; _retry := false;
     phase := ReqAwaitRefresh PostPending;
     retry_sets := 0; reissues := 0 |}.

(** A request answered 401, retried after a refresh, and answered 401
    again. *)
Definition retry_then_401 : list Event :=
  [Call 1; RunRequestInterceptor 1 1000; TransportFails 1 unauthorized;
   RefreshResponds 1 (PostOk (Some refreshed)); Continue 1;
   RunRequestInterceptor 1 1001; TransportFails 1 unauthorized].

Definition retried_request : Request :=
  {| Authorization := Some "Bearer exp=9000"; _retry := true;
     phase := Rejected (parseApiError (JsObject unauthorized));
     retry_sets := 1; reissues := 1 |}.

(** Request 1 leads a refresh that was answered with a new token, request
    2 waits; the leader has not resumed yet. *)
Definition refresh_answered : list Event :=
  [Call 1; Call 2; RunRequestInterceptor 1 1800000;
   RunRequestInterceptor 2 1800001;
   RefreshResponds 1 (PostOk (Some refreshed))].

Definition answered_leader : Request :=
  {| Authorization := None; _retry := false;
     phase := ReqAwaitRefresh (Returned (Some "exp=9000"));
     retry_sets := 0; reissues := 0 |}.

(** A request sent with a token far from expiry. *)
Definition first_send : list Event :=
  [Call 1; RunRequestInterceptor 1 1000].

Definition sent_request : Request :=
  {| Authorization := Some "Bearer exp=9000"; _retry := false;
     phase := InTransport; retry_sets := 0; reissues := 0 |}.

End Scenarios.

(** ** error-handler.ts: messages and formatting *)

Module ErrorFormat.
Import Js ErrorHandler.

Inductive ErrorLanguage := vi | en.

(** An entry of [errorMessages]. *)
Record Localized := { msg_vi : string; msg_en : string }.

Definition localize (m : Localized) (lang : ErrorLanguage) : string :=
  match lang with
  | vi => msg_vi m
  | en => msg_en m
  end.

(** [errorMessages[status]] for a numeric status. *)
Definition status_message (st : Z) : option Localized :=
  if st =? 400 then
    Some {| msg_vi := "Yêu cầu không hợp lệ"; msg_en := "Bad request" |}
  else if st =? 401 then
    Some {| msg_vi := "Phiên đăng nhập đã hết hạn. Vui lòng đăng nhập lại";
            msg_en := "Session expired. Please login again" |}
  else if st =? 403 then
    Some {| msg_vi := "Bạn không có quyền thực hiện thao tác này";
            msg_en := "You do not have permission to perform this action" |}
  else if st =? 404 then
    Some {| msg_vi := "Không tìm thấy tài nguyên";
            msg_en := "Resource not found" |}
  else if st =? 409 then
    Some {| msg_vi := "Dữ liệu bị trùng lặp";
            msg_en := "Data conflict - duplicate entry" |}
  else if st =? 422 then
    Some {| msg_vi := "Dữ liệu không hợp lệ"; msg_en := "Validation failed" |}
  else if st =? 500 then
    Some {| msg_vi := "Lỗi máy chủ. Vui lòng thử lại sau";
            msg_en := "Server error. Please try again later" |}
  else if st =? 502 then
    Some {| msg_vi := "Lỗi kết nối máy chủ"; msg_en := "Bad gateway" |}
  else if st =? 503 then
    Some {| msg_vi := "Dịch vụ tạm thời không khả dụng";
            msg_en := "Service temporarily unavailable" |}
  else if st =? 504 then
    Some {| msg_vi := "Hết thời gian chờ kết nối"; msg_en := "Gateway timeout" |}
  else None.

Definition network_message : Localized :=
  {| msg_vi := "Lỗi kết nối mạng. Vui lòng kiểm tra kết nối internet";
     msg_en := "Network error. Please check your internet connection" |}.

Definition timeout_message : Localized :=
  {| msg_vi := "Hết thời gian chờ. Vui lòng thử lại";
     msg_en := "Request timeout. Please try again" |}.

Definition unknown_message : Localized :=
  {| msg_vi := "Có lỗi xảy ra. Vui lòng thử lại";
     msg_en := "An error occurred. Please try again" |}.

(** An argument typed [error: any] for the functions that test
    [typeof error === 'string']. *)
Inductive ErrorArg :=
  | ArgString (s : string)
  | ArgValue (error : JsError).

(** The value whose properties are read: a string has none of them. *)
Definition arg_value (a : ErrorArg) : JsError :=
  match a with
  | ArgString _ =>
      JsObject {| response := None; request := false; code := None;
                  message := None |}
  | ArgValue error => error
  end.

(** [error?.request] is truthy. *)
Definition err_request (error : JsError) : bool :=
  match error with
  | JsObject e => request e
  | _ => false
  end.

(** The [if (error?.response)] block of [getApiErrorMessage]: the message it
    returns, or [None] when control leaves the block. *)
Definition response_message (error : JsError) (lang : ErrorLanguage)
  : option string :=
  match err_response error with
  | Some response =>
      if truthy_str (data response ≫= data_message)
      then data response ≫= data_message
      else if negb (status response =? 0)
      then (fun m => localize m lang) <$> status_message (status response)
      else None
  | None => None
  end.

Definition getApiErrorMessage (error : ErrorArg) (lang : ErrorLanguage)
  : string :=
  match error with
  | ArgString s => s
  | ArgValue e =>
      match response_message e lang with
      | Some m => m
      | None =>
          if str_is (err_code e) "ERR_NETWORK"
             || opt_includes (err_message e) "Network Error"
          then localize network_message lang
          else if str_is (err_code e) "ECONNABORTED"
                  || opt_includes (err_message e) "timeout"
          then localize timeout_message lang
          else if err_request e then localize network_message lang
          else if truthy_str (err_message e)
          then default "" (err_message e)
          else localize unknown_message lang
      end
  end.

Definition getValidationErrors (error : JsError)
  : option (list (string * string)) :=
  (err_response error ≫= data) ≫= data_errors.

Record FormattedError := {
  fe_message : string;
  fe_validationErrors : option (list (string * string));
  fe_status : option Z;
  fe_code : option string;
  fe_category : ErrorCategory;
  fe_type : ErrorType;
  fe_isAuthError : bool;
  fe_isPermissionError : bool;
  fe_isValidationError : bool;
  fe_isRetryable : bool;
  fe_isBusinessError : bool
}.

Definition type_eqb (a b : ErrorType) : bool :=
  match a, b with
  | retryable, retryable | non_retryable, non_retryable
  | business_type, business_type | system, system => true
  | _, _ => false
  end.

Definition formatError (error : ErrorArg) (lang : ErrorLanguage)
  : FormattedError :=
  let e := arg_value error in
  let category := getErrorCategory e in
  let type := getErrorType e in
  {| fe_message := getApiErrorMessage error lang;
     fe_validationErrors := getValidationErrors e;
     fe_status := err_status e;
     fe_code := err_code e;
     fe_category := category;
     fe_type := type;
     fe_isAuthError := category_eqb category auth;
     fe_isPermissionError := category_eqb category permission;
     fe_isValidationError := category_eqb category validation;
     fe_isRetryable := type_eqb type retryable;
     fe_isBusinessError := isBusinessError e |}.

(** The statuses [parseApiError] has a class for. *)
Definition parsed_statuses : list Z := [400; 401; 403; 404; 409; 422].

End ErrorFormat.

(** ** auth.ts and http.ts: the timer and the service methods *)

Module AuthTimer.
Import Js Auth.

Section WithRuntime.
Context `{Runtime}.

(** [refreshAccessToken(refreshFn)]: [refreshFn] resolves with a response
    ([Some]) or rejects ([None]). *)
Definition refreshAccessToken (refreshFn : string -> option AuthResponseDto)
  (w : World) : World * option string :=
  let refreshToken := getRefreshToken w in
  if negb (truthy_str refreshToken) then (w, None)
  else
    match refreshFn (default "" refreshToken) with
    | Some response => (storeAuthData response w, Some (accessToken response))
    | None => (clearAuthData w, None)
    end.

Inductive Timer := Cleared | Running.

(** One firing of the interval of [setupTokenRefresh]. *)
Definition interval_tick (refreshFn : string -> option AuthResponseDto)
  (now : Z) (w : World) : World * Timer :=
  if negb (isAuthenticated w now) then (w, Cleared)
  else if isTokenExpiringSoon w now then
    let '(w1, newToken) := refreshAccessToken refreshFn w in
    if negb (truthy_str newToken)
    then (redirectToLogin (pathname <$> w1) w1, Running)
    else (w1, Running)
  else (w, Running).

(** The argument of [HttpService.setAuthToken]. *)
Inductive TokenArg :=
  | TokenString (token : string)
  | TokenData (data : AuthResponseDto).

Definition setAuthToken (data : TokenArg) (w : World) : World :=
  match data with
  | TokenString token => setItem AUTH_TOKEN_KEY token <$> w
  | TokenData d => storeAuthData d w
  end.

Definition removeAuthToken (w : World) : World := clearAuthData w.

Definition getAuthToken (w : World) : option string := getAccessToken w.

(** [HttpService.isAuthenticated]: [!!getAccessToken()]. *)
Definition service_isAuthenticated (w : World) : bool :=
  truthy_str (getAccessToken w).

End WithRuntime.

End AuthTimer.

(** ** http.ts: further invariants *)

Module HttpInv2.
Import Js ErrorHandler Auth Http HttpInv.

Definition waiting_phase (p : Phase) : bool :=
  match p with
  | ReqWaiting | RespWaiting => true
  | _ => false
  end.

Definition settled (p : Phase) : bool :=
  match p with
  | Fulfilled _ | Rejected _ => true
  | _ => false
  end.

(** The token a chain holds after [await refreshToken()], if any. *)
Definition returned_token (p : Phase) : option string :=
  match p with
  | ReqAwaitRefresh (Returned t) | RespAwaitRefresh _ (Returned t) => t
  | _ => None
  end.

Definition target (s : Subscriber) : nat :=
  match s with
  | SubRequest r | SubRetry r => r
  end.

#[export] Instance Subscriber_eq_dec : EqDecision Subscriber.
Proof. solve_decision. Defined.

(** Phase in which the chain that pushed [s] is suspended. *)
Definition phase_of_subscriber (s : Subscriber) : Phase :=
  match s with
  | SubRequest _ => ReqWaiting
  | SubRetry _ => RespWaiting
  end.

Section WithRuntime.
Context `{Runtime}.

(** The subscriber list and the suspended chains mirror each other: no
    closure is queued twice, a closure is queued exactly while its chain
    waits, and a token returned by [refreshToken()] is never empty. *)
Definition waiters_wf_on (m : gmap nat Request) (subs : list Subscriber)
  : Prop :=
  NoDup subs
  /\ (forall s, s ∈ subs <->
                exists q, m !! target s = Some q
                          /\ phase q = phase_of_subscriber s)
  /\ (forall r q t, m !! r = Some q -> returned_token (phase q) = Some t ->
                    truthy_str (Some t) = true).

Definition waiters_wf (st : State) : Prop :=
  waiters_wf_on (requests st) (refreshSubscribers st).

(** Server side: no window, no exchange, no credential on any request, and
    no chain holds a token or an outstanding POST. *)
Definition server_side (st : State) : Prop :=
  win st = None
  /\ exchanges st = 0%nat
  /\ forall r q, requests st !! r = Some q ->
                 Authorization q = None
                 /\ posting (phase q) = false
                 /\ returned_token (phase q) = None.

(** The event starts a proactive refresh, or a refresh after a 401. *)
Definition starts_refresh (st : State) (ev : Event) : Prop :=
  match ev with
  | RunRequestInterceptor r now =>
      truthy_str (getAccessToken (win st)) = true
      /\ isTokenExpiringSoon (win st) now = true
      /\ exists q, requests st !! r = Some q /\ phase q = Queued
  | TransportFails r error =>
      num_is (status <$> response error) 401 = true
      /\ exists q, requests st !! r = Some q /\ phase q = InTransport
                   /\ _retry q = false
  | _ => False
  end.

End WithRuntime.

End HttpInv2.

(** * Properties *)

(** ** Error classification *)

Module ErrorHandlerSpec.
Import Js ErrorHandler.

Lemma first_match_cons {A C : Type} (p : A -> bool) (c : C) table fallback x :
  first_match ((p, c) :: table) fallback x
  = if p x then c else first_match table fallback x.
Proof. unfold first_match. simpl. destruct (p x); reflexivity. Qed.

(** C4: [getErrorCategory] is the first match of the ordered table auth,
    permission, validation, notfound, conflict, server, network, timeout,
    business, with [unknown] as fallback; and an error response with status
    422 is [validation] also when it carries a server message, which makes
    the weaker business predicate hold of it. *)
Theorem getErrorCategory_priority :
  (forall error,
     getErrorCategory error = first_match priority_table unknown error)
  /\ (forall c m err errs req cd msg,
        let error :=
          JsObject {| response :=
                        Some {| status := 422;
                                data := Some {| data_message := Some (String c m);
                                                data_error := err;
                                                data_errors := errs |} |};
                      request := req; code := cd; message := msg |} in
        isBusinessError error = true
        /\ getErrorCategory error = validation).
Proof.
  split.
  - intros error. unfold priority_table.
    rewrite !first_match_cons.
    unfold getErrorCategory, isAuthError, isForbiddenError, isValidationError,
      isNetworkError, isTimeoutError, isBusinessError.
    reflexivity.
  - intros c m err errs req cd msg. split; reflexivity.
Qed.

(** C5: the error type is a function of the category and of the presence of
    a server message. *)
Theorem getErrorType_of_category error :
  getErrorType error
  = type_of_category (getErrorCategory error) (isBusinessError error).
Proof.
  unfold getErrorType, isBusinessError.
  destruct (getErrorCategory error); reflexivity.
Qed.

Lemma no_response_is_network error :
  err_response error = None -> getErrorCategory error = network.
Proof.
  intros Hr. unfold getErrorCategory, err_status, err_has_errors.
  rewrite Hr. simpl. rewrite !orb_true_r. reflexivity.
Qed.

(** C6: a timed-out request, which has the timeout code and message and no
    response, satisfies [isTimeoutError] and yet is classified [network],
    with the retryable type; so is every failure without a response. *)
Theorem timeout_classified_network :
  isTimeoutError axios_timeout = true
  /\ getErrorCategory axios_timeout = network
  /\ (forall req cd msg,
        getErrorCategory
          (JsObject {| response := None; request := req;
                       code := cd; message := msg |}) = network).
Proof.
  split; [reflexivity | split; [reflexivity |]].
  intros req cd msg. apply no_response_is_network. reflexivity.
Qed.

(** No response at all (offline): network, retryable. *)
Example offline_is_retryable_network :
  let error := JsObject {| response := None; request := true;
                           code := Some "ERR_NETWORK";
                           message := Some "Network Error" |} in
  getErrorCategory error = network /\ getErrorType error = retryable.
Proof. split; reflexivity. Qed.

(** C9, as stated: some input is not mapped to an [AppError]. *)
Lemma parseApiError_nullish_throws :
  ~ (forall error, exists a, parseApiError error = Returns a).
Proof.
  intros Hall. destruct (Hall JsNullish) as [a Ha]. discriminate Ha.
Qed.

(** C9, amended: every input other than [null]/[undefined] is mapped to an
    [AppError], an [AppError] is returned as it is, and parsing twice is
    parsing once (both throw on [null]/[undefined]). *)
Theorem parseApiError_idempotent :
  (forall error, error <> JsNullish -> exists a, parseApiError error = Returns a)
  /\ (forall a, parseApiError (JsAppError a) = Returns a)
  /\ (forall error, parse_twice error = parseApiError error).
Proof.
  split; [| split].
  - intros [| a | e] Hne; [congruence | eexists; reflexivity ..].
  - reflexivity.
  - intros [| a | e]; reflexivity.
Qed.

Lemma parseApiError_idempotent_witness :
  JsObject {| response := Some {| status := 404; data := None |};
              request := true; code := None; message := None |} <> JsNullish
  /\ exists a,
       parseApiError
         (JsObject {| response := Some {| status := 404; data := None |};
                      request := true; code := None; message := None |})
       = Returns a.
Proof.
  split; [discriminate |].
  apply (proj1 parseApiError_idempotent); discriminate.
Defined.

End ErrorHandlerSpec.

(** ** Token lifecycle *)

Module AuthSpec.
Import Js ErrorHandler Auth.

(** *** Rounding to a double *)

Lemma round53_small n : n < 2 ^ 53 -> round53 n = n.
Proof. intros Hn. unfold round53. destruct (Z.ltb_spec n (2 ^ 53)); [reflexivity | lia]. Qed.

(** The shape of a rounding above [2 ^ 53]. *)
Lemma round53_large n :
  2 ^ 53 <= n ->
  exists q P,
    2 <= P /\ 2 ^ 52 <= q < 2 ^ 53 /\ 2 ^ Z.log2 n = 2 ^ 52 * P
    /\ q * P <= n < (q + 1) * P
    /\ (round53 n = q * P \/ (round53 n = (q + 1) * P /\ q * P < n)).
Proof.
  intros Hn. unfold round53.
  destruct (Z.ltb_spec n (2 ^ 53)) as [| _]; [lia |].
  assert (0 < n) as Hpos by lia.
  pose proof (Z.log2_spec n Hpos) as [Hlo Hhi].
  assert (53 <= Z.log2 n) as Hb by (apply Z.log2_le_pow2; lia).
  set (b := Z.log2 n) in *. set (sh := b - 52).
  assert (0 < 2 ^ sh) as HP by (apply Z.pow_pos_nonneg; lia).
  assert (2 ^ b = 2 ^ 52 * 2 ^ sh) as Hsplit
    by (rewrite <- Z.pow_add_r by lia; f_equal; lia).
  assert (2 ^ Z.succ b = 2 ^ 53 * 2 ^ sh) as Hsplit'
    by (rewrite <- Z.pow_add_r by lia; f_equal; lia).
  assert (2 <= 2 ^ sh) as HP2.
  { change 2 with (2 ^ 1) at 1. apply Z.pow_le_mono_r; lia. }
  pose proof (Z.div_mod n (2 ^ sh) ltac:(lia)) as Hdm.
  pose proof (Z.mod_pos_bound n (2 ^ sh) HP) as Hr.
  set (q := n / 2 ^ sh) in *. set (r := n mod 2 ^ sh) in *.
  exists q, (2 ^ sh).
  assert (2 ^ 52 <= q < 2 ^ 53) as Hq by nia.
  split; [exact HP2 |]. split; [exact Hq |]. split; [exact Hsplit |].
  split; [nia |].
  destruct ((2 ^ (sh - 1) <? r) || ((r =? 2 ^ (sh - 1)) && Z.odd q)) eqn:Hup.
  - right. split; [reflexivity |].
    assert (0 < 2 ^ (sh - 1)) by (apply Z.pow_pos_nonneg; lia).
    apply orb_true_iff in Hup as [Hup | Hup].
    + apply Z.ltb_lt in Hup. nia.
    + apply andb_true_iff in Hup as [Hup _]. apply Z.eqb_eq in Hup. nia.
  - left. reflexivity.
Qed.

Lemma round53_nonneg n : 0 <= n -> 0 <= round53 n.
Proof.
  intros Hn. destruct (Z.lt_ge_cases n (2 ^ 53)) as [Hs | Hl].
  - rewrite round53_small; lia.
  - destruct (round53_large n Hl) as (q & P & HP & Hq & _ & _ & [-> | [-> _]]); nia.
Qed.

Lemma round53_pos n : 0 < n -> 0 < round53 n.
Proof.
  intros Hn. destruct (Z.lt_ge_cases n (2 ^ 53)) as [Hs | Hl].
  - rewrite round53_small; lia.
  - destruct (round53_large n Hl) as (q & P & HP & Hq & _ & _ & [-> | [-> _]]); nia.
Qed.

Lemma round53_idem n : round53 (round53 n) = round53 n.
Proof.
  destruct (Z.lt_ge_cases n (2 ^ 53)) as [Hs | Hl].
  - rewrite !(round53_small n) by lia. reflexivity.
  - destruct (round53_large n Hl) as (q & P & HP & Hq & Hb & Hn & HR).
    assert (53 <= Z.log2 n) as Hlog by (apply Z.log2_le_pow2; lia).
    assert (P = 2 ^ (Z.log2 n - 52)) as HPeq.
    { replace (2 ^ Z.log2 n) with (2 ^ 52 * 2 ^ (Z.log2 n - 52)) in Hb
        by (rewrite <- Z.pow_add_r by lia; f_equal; lia).
      lia. }
    assert (exists q', 2 ^ 52 <= q' <= 2 ^ 53 /\ round53 n = q' * P)
      as (q' & Hq' & ->).
    { destruct HR as [-> | [-> _]]; [exists q | exists (q + 1)]; lia. }
    destruct (Z.eq_dec q' (2 ^ 53)) as [-> | Hne].
    + (* a power of two, one binade up *)
      assert (2 ^ 53 * P = 2 ^ (Z.log2 n + 1)) as Heq.
      { rewrite HPeq, <- Z.pow_add_r by lia. f_equal. lia. }
      rewrite Heq. unfold round53.
      destruct (Z.ltb_spec (2 ^ (Z.log2 n + 1)) (2 ^ 53)) as [Hlt | _].
      { apply Z.pow_lt_mono_r_iff in Hlt; lia. }
      rewrite Z.log2_pow2 by lia.
      replace (Z.log2 n + 1 - 52) with (Z.log2 n - 51) by lia.
      replace (2 ^ (Z.log2 n + 1)) with (2 ^ 52 * 2 ^ (Z.log2 n - 51))
        by (rewrite <- Z.pow_add_r by lia; f_equal; lia).
      assert (0 < 2 ^ (Z.log2 n - 51)) by (apply Z.pow_pos_nonneg; lia).
      assert (0 < 2 ^ (Z.log2 n - 51 - 1)) by (apply Z.pow_pos_nonneg; lia).
      rewrite Z.div_mul, Z.mod_mul by lia.
      destruct (Z.ltb_spec (2 ^ (Z.log2 n - 51 - 1)) 0); [lia |].
      destruct (Z.eqb_spec 0 (2 ^ (Z.log2 n - 51 - 1))); [lia |].
      reflexivity.
    + assert (Z.log2 (q' * P) = Z.log2 n) as Hlog'.
      { apply Z.log2_unique; [lia |].
        replace (2 ^ Z.succ (Z.log2 n)) with (2 ^ 53 * P)
          by (rewrite HPeq, <- Z.pow_add_r by lia; f_equal; lia).
        nia. }
      unfold round53.
      destruct (Z.ltb_spec (q' * P) (2 ^ 53)) as [Hlt | _]; [nia |].
      rewrite Hlog', <- HPeq.
      assert (0 < 2 ^ (Z.log2 n - 52 - 1)) by (apply Z.pow_pos_nonneg; lia).
      rewrite Z.div_mul, Z.mod_mul by lia.
      destruct (Z.ltb_spec (2 ^ (Z.log2 n - 52 - 1)) 0); [lia |].
      destruct (Z.eqb_spec 0 (2 ^ (Z.log2 n - 52 - 1))); [lia |].
      reflexivity.
Qed.

(** Rounding does not cross a double. *)
Lemma round53_le_double n d :
  0 <= n <= d -> round53 d = d -> round53 n <= d.
Proof.
  intros Hn Hd. destruct (Z.lt_ge_cases n (2 ^ 53)) as [Hs | Hl].
  - rewrite round53_small; lia.
  - destruct (round53_large n Hl) as (q & P & HP & Hq & Hb & Hqn & HR).
    destruct HR as [-> | [-> Hlt]]; [lia |].
    destruct (round53_large d ltac:(lia)) as (qd & Pd & HPd & Hqd & Hbd & Hqdd & HRd).
    assert (d = qd * Pd) as Hdq by (destruct HRd as [HRd | [HRd _]]; nia).
    assert (Z.log2 n <= Z.log2 d) as Hmono by (apply Z.log2_le_mono; lia).
    destruct (Z.eq_dec (Z.log2 n) (Z.log2 d)) as [Heq | Hne].
    + rewrite Heq in Hb. assert (P = Pd) as -> by lia.
      assert (q < qd) by (apply (Z.mul_lt_mono_pos_r Pd); lia).
      rewrite Hdq. apply Z.mul_le_mono_nonneg_r; lia.
    + assert (2 ^ (Z.log2 n + 1) <= 2 ^ Z.log2 d) as Hpow
        by (apply Z.pow_le_mono_r; lia).
      rewrite Z.pow_add_r, Hb in Hpow by (try lia; apply Z.log2_nonneg).
      pose proof (Z.log2_spec d ltac:(lia)) as [Hdlo _].
      assert ((q + 1) * P <= 2 ^ 53 * P)
        by (apply Z.mul_le_mono_nonneg_r; lia).
      lia.
Qed.

Lemma round53_ge_double n d :
  0 <= d <= n -> round53 d = d -> d <= round53 n.
Proof.
  intros Hn Hd. destruct (Z.lt_ge_cases n (2 ^ 53)) as [Hs | Hl].
  - rewrite round53_small; lia.
  - destruct (round53_large n Hl) as (q & P & HP & Hq & Hb & Hqn & HR).
    assert (q * P <= round53 n) as Hres by (destruct HR as [-> | [-> _]]; nia).
    destruct (Z.lt_ge_cases d (2 ^ 53)) as [Hds | Hdl]; [nia |].
    destruct (round53_large d Hdl) as (qd & Pd & HPd & Hqd & Hbd & Hqdd & HRd).
    assert (d = qd * Pd) as Hdq by (destruct HRd as [HRd | [HRd _]]; nia).
    assert (Z.log2 d <= Z.log2 n) as Hmono by (apply Z.log2_le_mono; lia).
    destruct (Z.eq_dec (Z.log2 n) (Z.log2 d)) as [Heq | Hne].
    + rewrite Heq in Hb. assert (P = Pd) as -> by lia.
      assert (qd < q + 1) by (apply (Z.mul_lt_mono_pos_r Pd); lia).
      assert (qd * Pd <= q * Pd) by (apply Z.mul_le_mono_nonneg_r; lia).
      lia.
    + assert (2 ^ (Z.log2 d + 1) <= 2 ^ Z.log2 n) as Hpow
        by (apply Z.pow_le_mono_r; lia).
      pose proof (Z.log2_spec d ltac:(lia)) as [_ Hdhi].
      rewrite <- Z.add_1_r in Hdhi.
      assert (2 ^ 52 * P <= q * P)
        by (apply Z.mul_le_mono_nonneg_r; lia).
      lia.
Qed.

(** *** The nearest double of a signed integer *)


Lemma nearest_double_JNum z x :
  nearest_double z = JNum x ->
  round53 (Z.abs z) < 2 ^ 1024
  /\ Z.abs x = round53 (Z.abs z)
  /\ (z < 0 -> x < 0) /\ (0 <= z -> 0 <= x) /\ (z = 0 <-> x = 0).
Proof.
  unfold nearest_double.
  destruct (Z.leb_spec (2 ^ 1024) (round53 (Z.abs z))); [discriminate |].
  pose proof (round53_nonneg (Z.abs z) ltac:(lia)) as H0.
  destruct (Z.ltb_spec z 0) as [Hneg | Hpos]; intros [= <-].
  - pose proof (round53_pos (Z.abs z) ltac:(lia)). lia.
  - destruct (Z.eq_dec z 0) as [-> | Hne]; [rewrite round53_small; cbn; lia |].
    pose proof (round53_pos (Z.abs z) ltac:(lia)). lia.
Qed.

Lemma nearest_double_idem z x :
  nearest_double z = JNum x -> nearest_double x = JNum x.
Proof.
  intros Hz. apply nearest_double_JNum in Hz as (Hfin & Habs & Hneg & Hpos & _).
  unfold nearest_double. rewrite Habs, round53_idem.
  destruct (Z.leb_spec (2 ^ 1024) (round53 (Z.abs z))); [lia |].
  destruct (Z.ltb_spec x 0); f_equal; lia.
Qed.

Lemma is_double_abs d :
  nearest_double d = JNum d ->
  round53 (Z.abs d) = Z.abs d /\ Z.abs d < 2 ^ 1024.
Proof. intros Hd. apply nearest_double_JNum in Hd. lia. Qed.

Lemma nearest_double_le_double z d :
  z <= d -> nearest_double d = JNum d ->
  match nearest_double z with
  | JNum x => x <= d
  | Infinity s => s = true
  | NaN => False
  end.
Proof.
  intros Hle Hd. apply is_double_abs in Hd as [Hd Hfin].
  unfold nearest_double.
  pose proof (round53_nonneg (Z.abs z) ltac:(lia)) as H0.
  destruct (Z.ltb_spec z 0) as [Hneg | Hpos].
  - destruct (Z.leb_spec (2 ^ 1024) (round53 (Z.abs z))); [reflexivity |].
    destruct (Z.lt_ge_cases d 0) as [Hdn | Hdp]; [| lia].
    pose proof (round53_ge_double (Z.abs z) (Z.abs d) ltac:(lia) Hd). lia.
  - pose proof (round53_le_double (Z.abs z) (Z.abs d) ltac:(lia) Hd).
    destruct (Z.leb_spec (2 ^ 1024) (round53 (Z.abs z))); lia.
Qed.


Lemma nearest_double_nonzero z : z <> 0 -> nearest_double z <> JNum 0.
Proof.
  intros Hz Heq. apply nearest_double_JNum in Heq. lia.
Qed.

(** *** Digits read by [parseInt] *)









(** *** The shortest decimal *)







(** *** What [parseInt] reads from a number written by [toString] *)






Section WithRuntime.
Context `{Runtime}.

(** *** What [storeAuthData] and [clearAuthData] leave under each key *)

Lemma getTokenExpiryFromJwt_truthy token t :
  getTokenExpiryFromJwt token = Some t -> falsy_num (Some t) = false.
Proof.
  unfold getTokenExpiryFromJwt.
  destruct (parseJwt token) as [[[e |]] |];
    cbn [exp fmap option_fmap option_map]; try (intros; discriminate).
  destruct (falsy_num (Some (nearest_double e))) eqn:He; intros [= <-].
  destruct (nearest_double e) as [| s | z]; cbn [num_mul falsy_num] in *;
    [discriminate | reflexivity |].
  apply Z.eqb_neq in He.
  destruct (nearest_double (z * 1000)) as [| s | x] eqn:Hx;
    [| reflexivity |].
  - unfold nearest_double in Hx.
    destruct (2 ^ 1024 <=? round53 (Z.abs (z * 1000))); discriminate.
  - apply Z.eqb_neq. intros ->.
    apply (nearest_double_nonzero (z * 1000)); [lia | exact Hx].
Qed.


Ltac keys :=
  unfold getAccessToken, getRefreshToken, getItem, setItem, removeItem,
    AUTH_TOKEN_KEY, REFRESH_TOKEN_KEY, TOKEN_EXPIRY_KEY, USER_KEY in *;
  cbn [mbind option_bind localStorage fmap option_fmap option_map] in *.

Lemma storeAuthData_access d b :
  getItem AUTH_TOKEN_KEY (storeAuthData d (Some b)) = Some (accessToken d).
Proof.
  unfold storeAuthData.
  destruct (truthy_str (refreshToken d)),
    (getTokenExpiryFromJwt (accessToken d)) as [t |], (user d);
    try destruct (falsy_num (Some t)); keys; by simplify_map_eq.
Qed.

Lemma storeAuthData_refresh d b :
  getItem REFRESH_TOKEN_KEY (storeAuthData d (Some b))
  = if truthy_str (refreshToken d) then refreshToken d
    else getItem REFRESH_TOKEN_KEY (Some b).
Proof.
  unfold storeAuthData.
  destruct (refreshToken d) as [rt |] eqn:Hrt; cbn [truthy_str];
    [destruct (negb (String.eqb rt ""))|];
    destruct (getTokenExpiryFromJwt (accessToken d)) as [t |], (user d);
    try destruct (falsy_num (Some t)); keys; by simplify_map_eq.
Qed.

Lemma storeAuthData_expiry d b :
  getItem TOKEN_EXPIRY_KEY (storeAuthData d (Some b))
  = match getTokenExpiryFromJwt (accessToken d) with
    | Some t => Some (toString t)
    | None => getItem TOKEN_EXPIRY_KEY (Some b)
    end.
Proof.
  unfold storeAuthData.
  destruct (getTokenExpiryFromJwt (accessToken d)) as [t |] eqn:Ht.
  - rewrite (getTokenExpiryFromJwt_truthy _ _ Ht).
    destruct (truthy_str (refreshToken d)), (user d); keys;
      by simplify_map_eq.
  - destruct (truthy_str (refreshToken d)), (user d); keys;
      by simplify_map_eq.
Qed.

Lemma storeAuthData_user d b :
  getItem USER_KEY (storeAuthData d (Some b))
  = match user d with
    | Some u => Some (JSON_stringify u)
    | None => getItem USER_KEY (Some b)
    end.
Proof.
  unfold storeAuthData.
  destruct (truthy_str (refreshToken d)),
    (getTokenExpiryFromJwt (accessToken d)) as [t |], (user d);
    try destruct (falsy_num (Some t)); keys; by simplify_map_eq.
Qed.



(** *** The stored expiry is a number that is not falsy *)






(** C10: a non-empty access token stored without an expiry is not expired,
    and its holder is authenticated. *)
Theorem no_expiry_never_expired w now token :
  getAccessToken w = Some token ->
  token <> "" ->
  getItem TOKEN_EXPIRY_KEY w = None ->
  isTokenExpired w now = false /\ isAuthenticated w now = true.
Proof.
  intros Htok Hne Hexp.
  assert (isTokenExpired w now = false) as Hfalse
    by (unfold isTokenExpired, getTokenExpiry; rewrite Hexp; reflexivity).
  split; [exact Hfalse |].
  unfold isAuthenticated. rewrite Htok, Hfalse. cbn [truthy_str].
  destruct (String.eqb_spec token ""); [contradiction | reflexivity].
Qed.

(** C8, amended: [storeAuthData] always overwrites the access token; the
    refresh token, the expiry and the user are overwritten when the new
    credential set has a non-empty refresh token, an access token with a
    decodable non-zero expiry claim, a user, and keep their previous value
    otherwise.  An expiry it writes is the claim of the new access token.
    When all three are supplied the replacement is wholesale. *)
Theorem storeAuthData_fields d b :
  let w' := storeAuthData d (Some b) in
  getItem AUTH_TOKEN_KEY w' = Some (accessToken d)
  /\ getItem REFRESH_TOKEN_KEY w'
     = (if truthy_str (refreshToken d) then refreshToken d
        else getItem REFRESH_TOKEN_KEY (Some b))
  /\ getItem TOKEN_EXPIRY_KEY w'
     = match getTokenExpiryFromJwt (accessToken d) with
       | Some t => Some (toString t)
       | None => getItem TOKEN_EXPIRY_KEY (Some b)
       end
  /\ getItem USER_KEY w'
     = match user d with
       | Some u => Some (JSON_stringify u)
       | None => getItem USER_KEY (Some b)
       end
  /\ (truthy_str (refreshToken d) = true ->
      is_Some (getTokenExpiryFromJwt (accessToken d)) ->
      is_Some (user d) ->
      replaced_wholesale d w').
Proof.
  cbn zeta.
  pose proof (storeAuthData_access d b) as Ha.
  pose proof (storeAuthData_refresh d b) as Hr.
  pose proof (storeAuthData_expiry d b) as He.
  pose proof (storeAuthData_user d b) as Hu.
  split; [exact Ha | split; [exact Hr | split; [exact He | split; [exact Hu |]]]].
  intros Hrt [t Ht] [u Hu']. unfold replaced_wholesale.
  rewrite Ha, Hr, He, Hu, Hrt, Ht, Hu'. done.
Qed.

End WithRuntime.

(** *** Evaluation on the demo runtime *)

Import Demo.

(** Numbers as [toString] writes them and [parseInt] reads them. *)
Example toString_notation :
  toString (nearest_double 2000000) = "2000000"
  /\ toString (nearest_double (2 ^ 53 + 1)) = "9007199254740992"
  /\ toString (nearest_double 123456789012345678) = "123456789012345680"
  /\ toString (nearest_double (10 ^ 21 - 100000)) = "999999999999999900000"
  /\ toString (nearest_double (10 ^ 21)) = "1e+21"
  /\ toString (nearest_double (2 ^ 70)) = "1.1805916207174113e+21"
  /\ toString (nearest_double (- 123456789 * 10 ^ 20)) = "-1.23456789e+28"
  /\ toString (nearest_double (2 ^ 1024 - 2 ^ 971))
     = "1.7976931348623157e+308"
  /\ toString (nearest_double (2 ^ 1024 - 2 ^ 970)) = "Infinity"
  /\ parseInt "1e+21" = JNum 1
  /\ parseInt "-1.23456789e+28" = JNum (-1)
  /\ parseInt "Infinity" = NaN
  /\ parseInt "9007199254740993" = JNum 9007199254740992.
Proof. repeat split; vm_compute; reflexivity. Qed.

Example session_2000_expiry :
  getItem TOKEN_EXPIRY_KEY session_2000 = Some "2000000".
Proof. vm_compute. reflexivity. Qed.

Example expiring_soon_at_window_start :
  isTokenExpiringSoon session_2000 1700000 = true
  /\ isTokenExpiringSoon session_2000 1699999 = false.
Proof. split; vm_compute; reflexivity. Qed.




Lemma no_expiry_never_expired_witness :
  isTokenExpired (Some (browser [("auth_token", "opaque-token")])) 99 = false
  /\ isAuthenticated (Some (browser [("auth_token", "opaque-token")])) 99 = true.
Proof.
  apply (no_expiry_never_expired _ 99 "opaque-token");
    [reflexivity | discriminate | reflexivity].
Defined.

(** C8, as stated: after storing a credential set without refresh token,
    decodable expiry and user over an earlier session, the refresh token,
    the expiry and the user of the earlier session are still stored. *)
Lemma storeAuthData_keeps_previous_fields :
  let w' := storeAuthData opaque_credentials session_2000 in
  getItem REFRESH_TOKEN_KEY w' = Some "refresh-old"
  /\ getItem TOKEN_EXPIRY_KEY w' = Some "2000000"
  /\ getItem USER_KEY w' = Some "alice"
  /\ ~ replaced_wholesale opaque_credentials w'.
Proof.
  cbn zeta. split; [| split; [| split]]; try (vm_compute; reflexivity).
  intros (_ & Hr & _). vm_compute in Hr. discriminate Hr.
Qed.

Lemma storeAuthData_fields_witness :
  replaced_wholesale
    (credentials "exp=2000" (Some "refresh-old") (Some "alice"))
    session_2000.
Proof.
  apply (storeAuthData_fields
           (credentials "exp=2000" (Some "refresh-old") (Some "alice"))
           (browser []));
    [reflexivity | vm_compute; eexists; reflexivity | eexists; reflexivity].
Defined.

End AuthSpec.

(** ** Interceptors *)

Module HttpSpec.
Import Js ErrorHandler Auth Http HttpInv.
Local Open Scope list_scope.

Section WithRuntime.
Context `{Runtime}.

(** *** What the subscribers do, request by request *)

Lemma call_subscriber_lookup token m s r :
  call_subscriber token m s !! r
  = (fun q => apply_sub token r q s) <$> m !! r.
Proof.
  destruct s as [r' | r']; cbn [call_subscriber apply_sub];
    rewrite lookup_alter; destruct (decide (r' = r)) as [-> | Hne];
    try reflexivity; by destruct (m !! r).
Qed.

Lemma fold_call_lookup token subs m r :
  fold_left (call_subscriber token) subs m !! r
  = (fun q => fold_left (apply_sub token r) subs q) <$> m !! r.
Proof.
  revert m. induction subs as [| s subs IH]; intros m; cbn [fold_left].
  - by destruct (m !! r).
  - rewrite IH, call_subscriber_lookup. by destruct (m !! r).
Qed.

Lemma apply_sub_facts token r q s :
  let q' := apply_sub token r q s in
  _retry q' = _retry q
  /\ retry_sets q' = retry_sets q
  /\ reissues q' = (reissues q + retry_subscriptions r [s])%nat
  /\ awaiting (phase q') = awaiting (phase q)
  /\ posting (phase q') = posting (phase q)
  /\ resp_awaiting (phase q') = resp_awaiting (phase q).
Proof.
  destruct s as [r' | r']; cbn [apply_sub retry_subscriptions];
    destruct (decide (r' = r)); cbn zeta;
    unfold resolve_config, resolve_retry; destruct (phase q) eqn:Hp;
    cbn; rewrite ?Hp; repeat split; lia.
Qed.

Lemma retry_subscriptions_app r l1 l2 :
  retry_subscriptions r (l1 ++ l2)
  = (retry_subscriptions r l1 + retry_subscriptions r l2)%nat.
Proof.
  induction l1 as [| [r' | r'] l1 IH]; cbn [app retry_subscriptions];
    [reflexivity | exact IH | rewrite IH; lia].
Qed.

Lemma fold_apply_sub_facts token r subs q :
  let q' := fold_left (apply_sub token r) subs q in
  _retry q' = _retry q
  /\ retry_sets q' = retry_sets q
  /\ reissues q' = (reissues q + retry_subscriptions r subs)%nat
  /\ awaiting (phase q') = awaiting (phase q)
  /\ posting (phase q') = posting (phase q)
  /\ resp_awaiting (phase q') = resp_awaiting (phase q).
Proof.
  revert q. induction subs as [| s subs IH]; intros q; cbn [fold_left].
  - cbn. repeat split; lia.
  - destruct (IH (apply_sub token r q s)) as (E1 & E2 & E3 & E4 & E5 & E6).
    destruct (apply_sub_facts token r q s) as (F1 & F2 & F3 & F4 & F5 & F6).
    cbn zeta. rewrite E1, E2, E3, E4, E5, E6, F1, F2, F3, F4, F5, F6.
    change (s :: subs) with ([s] ++ subs).
    rewrite retry_subscriptions_app. repeat split; lia.
Qed.

(** *** At most one retry *)

Lemma retry_bounded_alter m subs subs' r f :
  retry_bounded_on m subs ->
  (forall r0, retry_subscriptions r0 subs' = retry_subscriptions r0 subs) ->
  (forall q, m !! r = Some q ->
             _retry (f q) = _retry q
             /\ retry_sets (f q) = retry_sets q
             /\ reissues (f q) = reissues q
             /\ (resp_awaiting (phase (f q)) = true ->
                 resp_awaiting (phase q) = true)) ->
  retry_bounded_on (alter f r m) subs'.
Proof.
  intros Hinv Hsubs Hf r0. specialize (Hinv r0).
  rewrite lookup_alter. destruct (decide (r = r0)) as [<- | Hne].
  - destruct (m !! r) as [q |] eqn:Hq; cbn [fmap option_fmap option_map].
    + destruct (Hf q eq_refl) as (F1 & F2 & F3 & F4).
      unfold pending_retries, retry_budget in *. rewrite F1, F2, F3, Hsubs.
      destruct Hinv as [I1 I2]. split; [exact I1 |].
      destruct (resp_awaiting (phase (f q))).
      * rewrite (F4 eq_refl) in I2. exact I2.
      * destruct (resp_awaiting (phase q)); lia.
    + rewrite Hsubs. exact Hinv.
  - destruct (m !! r0) as [q |]; unfold pending_retries in *;
      rewrite Hsubs; exact Hinv.
Qed.

Lemma retry_bounded_notify token m subs :
  retry_bounded_on m subs ->
  retry_bounded_on (fold_left (call_subscriber token) subs m) [].
Proof.
  intros Hinv r. specialize (Hinv r). rewrite fold_call_lookup.
  destruct (m !! r) as [q |]; cbn [fmap option_fmap option_map];
    [| reflexivity].
  destruct (fold_apply_sub_facts token r subs q) as (E1 & E2 & E3 & _ & _ & E6).
  cbn zeta in *. unfold pending_retries, retry_budget in *.
  rewrite E1, E2, E3, E6. cbn [retry_subscriptions]. lia.
Qed.

Ltac harmless :=
  intros ? ?; cbn; repeat split; try reflexivity; try discriminate; auto.

Lemma step_retry_bounded st ev :
  retry_bounded st -> retry_bounded (step st ev).
Proof.
  intros Hinv. unfold retry_bounded in *.
  destruct ev as [r | r now | r o | r | r resp | r error]; cbn [step].
  - (* Call *)
    destruct (requests st !! r) eqn:Hr; [exact Hinv |].
    cbn. intros r0. specialize (Hinv r0).
    destruct (decide (r = r0)) as [<- | Hne].
    + rewrite lookup_insert_eq. rewrite Hr in Hinv.
      unfold pending_retries, retry_budget. cbn. lia.
    + rewrite lookup_insert_ne by exact Hne. exact Hinv.
  - (* RunRequestInterceptor *)
    destruct (requests st !! r) as [q |] eqn:Hq; [| exact Hinv].
    cbn [fmap option_fmap option_map]. destruct (phase q) eqn:Hp;
      try exact Hinv.
    unfold request_interceptor.
    destruct (truthy_str (getAccessToken (win st)));
      [destruct (isTokenExpiringSoon (win st) now && negb (isRefreshing st));
       [unfold refreshToken_call;
        destruct (truthy_str (getRefreshToken (win (set_isRefreshing true st))))
       | destruct (isRefreshing st)] |];
      cbn; (eapply retry_bounded_alter; [exact Hinv | | harmless]);
      intros r0; rewrite ?retry_subscriptions_app; cbn; lia.
  - (* RefreshResponds *)
    destruct (requests st !! r) as [q |] eqn:Hq; [| exact Hinv].
    cbn [fmap option_fmap option_map].
    destruct (phase q) as [| [|] | | | ? [|] | | |] eqn:Hp; try exact Hinv;
      unfold refreshToken_settle;
      destruct o as [[body |] |];
      try destruct (truthy_str (Some (accessToken body)));
      cbn; (eapply retry_bounded_alter; [exact Hinv | reflexivity |]);
      intros q0 Hq0; assert (q0 = q) as -> by congruence;
      rewrite Hp; cbn; auto.
  - (* Continue *)
    destruct (requests st !! r) as [q |] eqn:Hq; [| exact Hinv].
    cbn [fmap option_fmap option_map].
    destruct (phase q) as [| [| newToken] | | | ? [| newToken] | | |] eqn:Hp;
      try exact Hinv.
    + unfold request_interceptor_resume.
      destruct (truthy_str newToken); cbn.
      * eapply retry_bounded_alter; [| reflexivity | harmless].
        apply retry_bounded_notify.
        eapply retry_bounded_alter; [exact Hinv | reflexivity | harmless].
      * eapply retry_bounded_alter; [exact Hinv | reflexivity | harmless].
    + unfold response_error_resume.
      destruct (truthy_str newToken); cbn.
      * intros r0.
        pose proof (retry_bounded_notify (default "" newToken) _ _
                      (retry_bounded_alter _ _ _ r
                         (set_Authorization (bearer (default "" newToken)))
                         Hinv (fun _ => eq_refl)
                         ltac:(harmless)) r0) as Hn.
        rewrite lookup_alter. destruct (decide (r = r0)) as [<- | Hne];
          [| exact Hn].
        rewrite fold_call_lookup, lookup_alter_eq, Hq in Hn |- *.
        cbn [fmap option_fmap option_map] in Hn |- *.
        destruct (fold_apply_sub_facts (default "" newToken) r
                    (refreshSubscribers st)
                    (set_Authorization (bearer (default "" newToken)) q))
          as (E1 & E2 & E3 & _ & _ & E6).
        cbn zeta in *. unfold pending_retries, retry_budget in *.
        cbn in *. rewrite Hp in E6. cbn in E6. rewrite E6 in Hn.
        split; [tauto | lia].
      * eapply retry_bounded_alter; [exact Hinv | reflexivity | harmless].
  - (* TransportResponds *)
    destruct (requests st !! r) as [q |] eqn:Hq; [| exact Hinv].
    cbn [fmap option_fmap option_map]. destruct (phase q) eqn:Hp;
      try exact Hinv.
    cbn. eapply retry_bounded_alter; [exact Hinv | reflexivity | harmless].
  - (* TransportFails *)
    destruct (requests st !! r) as [q |] eqn:Hq; [| exact Hinv].
    destruct (phase q) eqn:Hp; try exact Hinv.
    unfold response_error.
    destruct (num_is (status <$> response error) 401 && negb (_retry q))
      eqn:Hcond;
      [| cbn; eapply retry_bounded_alter; [exact Hinv | reflexivity | harmless]].
    apply andb_true_iff in Hcond as [_ Hretry].
    apply negb_true_iff in Hretry.
    assert (forall subs' p',
              (forall r0, retry_subscriptions r0 subs'
                          = (retry_subscriptions r0 (refreshSubscribers st)
                             + if resp_awaiting p' then 0
                               else if decide (r = r0) then 1 else 0)%nat) ->
              retry_bounded_on
                (alter (set_phase p') r (alter mark_retry r (requests st)))
                subs') as Hboth.
    { intros subs' p' Hsubs r0. specialize (Hinv r0).
      specialize (Hsubs r0). destruct (decide (r = r0)) as [<- | Hne].
      - rewrite !lookup_alter_eq, Hq. rewrite Hq in Hinv. cbn.
        unfold pending_retries, retry_budget in *. rewrite Hretry, Hp in Hinv.
        cbn in *. rewrite Hsubs. destruct (resp_awaiting p'); split; lia.
      - rewrite !lookup_alter_ne by exact Hne. unfold pending_retries in *.
        replace (retry_subscriptions r0 subs')
          with (retry_subscriptions r0 (refreshSubscribers st))
          by (destruct (resp_awaiting p'); lia).
        destruct (requests st !! r0) as [q0 |]; exact Hinv. }
    cbn. destruct (isRefreshing st); cbn.
    + apply Hboth. intros r0. rewrite retry_subscriptions_app. cbn.
      destruct (decide (r = r0)); lia.
    + unfold refreshToken_call.
      destruct (truthy_str _); cbn; apply Hboth; intros r0; cbn; lia.
Qed.

Lemma run_retry_bounded evs st :
  retry_bounded st -> retry_bounded (run evs st).
Proof.
  revert st. induction evs as [| ev evs IH]; intros st Hinv; [exact Hinv |].
  apply IH, step_retry_bounded, Hinv.
Qed.

Lemma initial_retry_bounded w : retry_bounded (initial w).
Proof. intros r. cbn. rewrite lookup_empty. reflexivity. Qed.

(** *** Single flight *)

(** A step that touches one chain which neither awaits before nor after. *)
Lemma single_flight_quiet b m m' n r :
  single_flight_on b m n ->
  (forall r', r' <> r -> m' !! r' = m !! r') ->
  (forall q, m !! r = Some q -> awaiting (phase q) = false) ->
  (forall q', m' !! r = Some q' -> awaiting (phase q') = false) ->
  single_flight_on b m' n.
Proof.
  intros Hinv Hother Hbefore Hafter. destruct b; cbn in *.
  - destruct Hinv as (r0 & q0 & Hq0 & Ha & Huniq & Hn).
    assert (r0 <> r) as Hne
      by (intros ->; specialize (Hbefore _ Hq0); congruence).
    exists r0, q0. rewrite (Hother r0 Hne). repeat split; try assumption.
    intros r' q' Hq' Ha'. destruct (decide (r' = r)) as [-> | Hne'].
    + specialize (Hafter _ Hq'). congruence.
    + rewrite (Hother r' Hne') in Hq'. eapply Huniq; eassumption.
  - destruct Hinv as [Hn Hnone]. split; [exact Hn |].
    intros r' q' Hq'. destruct (decide (r' = r)) as [-> | Hne'].
    + eapply Hafter, Hq'.
    + rewrite (Hother r' Hne') in Hq'. eapply Hnone, Hq'.
Qed.

(** A chain takes the lead while nothing is in flight. *)
Lemma single_flight_lead m m' r q' :
  single_flight_on false m 0 ->
  (forall r', r' <> r -> m' !! r' = m !! r') ->
  m' !! r = Some q' ->
  awaiting (phase q') = true ->
  single_flight_on true m' (if posting (phase q') then 1 else 0).
Proof.
  intros [_ Hnone] Hother Hq' Ha. exists r, q'.
  repeat split; try assumption.
  intros r' q0 Hq0 Ha0. destruct (decide (r' = r)) as [| Hne]; [assumption |].
  rewrite (Hother r' Hne) in Hq0. specialize (Hnone _ _ Hq0). congruence.
Qed.

(** While a chain awaits, the flag is set and it is the only one. *)
Lemma single_flight_leader b m n r q :
  single_flight_on b m n ->
  m !! r = Some q ->
  awaiting (phase q) = true ->
  b = true
  /\ n = (if posting (phase q) then 1 else 0)%nat
  /\ forall r' q', m !! r' = Some q' -> awaiting (phase q') = true -> r' = r.
Proof.
  intros Hinv Hq Ha. destruct b; cbn in Hinv.
  - destruct Hinv as (r0 & q0 & Hq0 & Ha0 & Huniq & Hn).
    assert (r = r0) as <- by (eapply Huniq; eassumption).
    assert (q0 = q) as -> by congruence. auto.
  - destruct Hinv as [_ Hnone]. specialize (Hnone _ _ Hq). congruence.
Qed.

Lemma alter_other (f : Request -> Request) (m : gmap nat Request) r r' :
  r' <> r -> alter f r m !! r' = m !! r'.
Proof. intros Hne. apply lookup_alter_ne. congruence. Qed.

Lemma step_single_flight st ev :
  single_flight st -> single_flight (step st ev).
Proof.
  intros Hinv. unfold single_flight in *.
  destruct ev as [r | r now | r o | r | r resp | r error]; cbn [step].
  - (* Call *)
    destruct (requests st !! r) eqn:Hr; [exact Hinv |]. cbn.
    eapply (single_flight_quiet _ _ _ _ r); [exact Hinv | | |].
    + intros r' Hne. apply lookup_insert_ne. congruence.
    + intros q Hq. congruence.
    + intros q'. rewrite lookup_insert_eq. intros [= <-]. reflexivity.
  - (* RunRequestInterceptor *)
    destruct (requests st !! r) as [q |] eqn:Hq; [| exact Hinv].
    cbn [fmap option_fmap option_map]. destruct (phase q) eqn:Hp;
      try exact Hinv.
    assert (forall f b n,
              (forall q0, awaiting (phase (f q0)) = false) ->
              single_flight_on b (requests st) n ->
              single_flight_on b (alter f r (requests st)) n) as Hquiet.
    { intros f b n Hf Hb. eapply single_flight_quiet; [exact Hb | | |].
      - intros r'. apply alter_other.
      - intros q0 Hq0. assert (q0 = q) as -> by congruence. by rewrite Hp.
      - intros q'. rewrite lookup_alter_eq, Hq. intros [= <-]. apply Hf. }
    unfold request_interceptor.
    destruct (truthy_str (getAccessToken (win st)));
      [| cbn; apply Hquiet; [reflexivity | exact Hinv]].
    destruct (isTokenExpiringSoon (win st) now && negb (isRefreshing st))
      eqn:Hcond.
    + apply andb_true_iff in Hcond as [_ Hidle].
      apply negb_true_iff in Hidle. rewrite Hidle in Hinv.
      pose proof Hinv as [Hn _]. rewrite Hn in Hinv.
      unfold refreshToken_call.
      destruct (truthy_str (getRefreshToken (win (set_isRefreshing true st))));
        cbn; rewrite ?Hn.
      * eapply (single_flight_lead _ _ r
                  (set_phase (ReqAwaitRefresh PostPending) q));
          [exact Hinv | intros r'; apply alter_other
           | by rewrite lookup_alter_eq, Hq | reflexivity].
      * eapply (single_flight_lead _ _ r
                  (set_phase (ReqAwaitRefresh (Returned None)) q));
          [exact Hinv | intros r'; apply alter_other
           | by rewrite lookup_alter_eq, Hq | reflexivity].
    + destruct (isRefreshing st) eqn:Hbusy; cbn; rewrite ?Hbusy;
        apply Hquiet; try reflexivity; exact Hinv.
  - (* RefreshResponds *)
    destruct (requests st !! r) as [q |] eqn:Hq; [| exact Hinv].
    cbn [fmap option_fmap option_map].
    assert (forall p',
              awaiting (phase q) = true -> posting (phase q) = true ->
              awaiting p' = true -> posting p' = false ->
              single_flight_on (isRefreshing st)
                (alter (set_phase p') r (requests st))
                (Nat.pred (inflight st))) as Hsettle.
    { intros p' Ha Hpo Ha' Hpo'.
      destruct (single_flight_leader _ _ _ _ _ Hinv Hq Ha)
        as (-> & -> & Huniq).
      rewrite Hpo. exists r, (set_phase p' q).
      rewrite lookup_alter_eq, Hq. cbn. rewrite Ha', Hpo'.
      repeat split; try reflexivity.
      intros r' q' Hq' Haq'. destruct (decide (r' = r)) as [| Hne];
        [assumption |].
      rewrite alter_other in Hq' by exact Hne. eapply Huniq; eassumption. }
    destruct (phase q) as [| [|] | | | ? [|] | | |] eqn:Hp; try exact Hinv;
      unfold refreshToken_settle;
      destruct o as [[body |] |];
      try destruct (truthy_str (Some (accessToken body)));
      cbn; apply Hsettle; reflexivity.
  - (* Continue *)
    destruct (requests st !! r) as [q |] eqn:Hq; [| exact Hinv].
    cbn [fmap option_fmap option_map].
    assert (forall (m' : gmap nat Request),
              awaiting (phase q) = true -> posting (phase q) = false ->
              (forall q', m' !! r = Some q' -> awaiting (phase q') = false) ->
              (forall r' q', r' <> r -> m' !! r' = Some q' ->
                 exists q0, requests st !! r' = Some q0
                            /\ awaiting (phase q') = awaiting (phase q0)) ->
              single_flight_on false m' (inflight st)) as Hrelease.
    { intros m' Ha Hpo Hr Hother.
      destruct (single_flight_leader _ _ _ _ _ Hinv Hq Ha)
        as (_ & Hn & Huniq).
      rewrite Hpo in Hn. split; [exact Hn |].
      intros r' q' Hq'. destruct (decide (r' = r)) as [-> | Hne].
      - eapply Hr, Hq'.
      - destruct (Hother _ _ Hne Hq') as (q0 & Hq0 & ->).
        destruct (awaiting (phase q0)) eqn:Ha0; [| reflexivity].
        contradict Hne. eapply Huniq; eassumption. }
    assert (forall token f g r' q',
              r' <> r ->
              alter g r
                (fold_left (call_subscriber token) (refreshSubscribers st)
                   (alter f r (requests st))) !! r' = Some q' ->
              exists q0, requests st !! r' = Some q0
                         /\ awaiting (phase q') = awaiting (phase q0))
      as Hnotified.
    { intros token f g r' q' Hne.
      rewrite alter_other, fold_call_lookup, alter_other by exact Hne.
      destruct (requests st !! r') as [q0 |]; [| discriminate].
      intros [= <-]. exists q0. split; [reflexivity |].
      apply fold_apply_sub_facts. }
    destruct (phase q) as [| [| newToken] | | | ? [| newToken] | | |] eqn:Hp;
      try exact Hinv.
    + unfold request_interceptor_resume.
      destruct (truthy_str newToken); cbn; apply Hrelease;
        try reflexivity.
      * intros q'. rewrite lookup_alter_eq.
        destruct (fold_left _ _ _ !! r); [| discriminate].
        intros [= <-]. reflexivity.
      * intros r' q' Hne. apply Hnotified. exact Hne.
      * intros q'. rewrite lookup_alter_eq, Hq. intros [= <-]. reflexivity.
      * intros r' q' Hne. rewrite alter_other by exact Hne. eauto.
    + unfold response_error_resume.
      destruct (truthy_str newToken); cbn; apply Hrelease;
        try reflexivity.
      * intros q'. rewrite lookup_alter_eq.
        destruct (fold_left _ _ _ !! r); [| discriminate].
        intros [= <-]. reflexivity.
      * intros r' q' Hne. apply Hnotified. exact Hne.
      * intros q'. rewrite lookup_alter_eq, Hq. intros [= <-]. reflexivity.
      * intros r' q' Hne. rewrite alter_other by exact Hne. eauto.
  - (* TransportResponds *)
    destruct (requests st !! r) as [q |] eqn:Hq; [| exact Hinv].
    cbn [fmap option_fmap option_map]. destruct (phase q) eqn:Hp;
      try exact Hinv.
    cbn. eapply (single_flight_quiet _ _ _ _ r); [exact Hinv | | |].
    + intros r'. apply alter_other.
    + intros q0 Hq0. assert (q0 = q) as -> by congruence. by rewrite Hp.
    + intros q'. rewrite lookup_alter_eq, Hq. intros [= <-]. reflexivity.
  - (* TransportFails *)
    destruct (requests st !! r) as [q |] eqn:Hq; [| exact Hinv].
    destruct (phase q) eqn:Hp; try exact Hinv.
    unfold response_error.
    destruct (num_is (status <$> response error) 401 && negb (_retry q)).
    + cbn. destruct (isRefreshing st) eqn:Hbusy; cbn.
      * rewrite Hbusy.
        eapply (single_flight_quiet _ _ _ _ r); [exact Hinv | | |].
        -- intros r' Hne. by rewrite !alter_other.
        -- intros q0 Hq0. assert (q0 = q) as -> by congruence. by rewrite Hp.
        -- intros q'. rewrite !lookup_alter_eq, Hq. intros [= <-]. reflexivity.
      * pose proof Hinv as [Hn _]. rewrite Hn in Hinv.
        unfold refreshToken_call.
        destruct (truthy_str _); cbn; rewrite ?Hn.
        -- eapply (single_flight_lead _ _ r
                     (set_phase (RespAwaitRefresh error PostPending)
                        (mark_retry q)));
             [exact Hinv | intros r' Hne; by rewrite !alter_other
              | by rewrite !lookup_alter_eq, Hq | reflexivity].
        -- eapply (single_flight_lead _ _ r
                     (set_phase (RespAwaitRefresh error (Returned None))
                        (mark_retry q)));
             [exact Hinv | intros r' Hne; by rewrite !alter_other
              | by rewrite !lookup_alter_eq, Hq | reflexivity].
    + cbn. eapply (single_flight_quiet _ _ _ _ r); [exact Hinv | | |].
      * intros r'. apply alter_other.
      * intros q0 Hq0. assert (q0 = q) as -> by congruence. by rewrite Hp.
      * intros q'. rewrite lookup_alter_eq, Hq. intros [= <-]. reflexivity.
Qed.

Lemma run_single_flight evs st :
  single_flight st -> single_flight (run evs st).
Proof.
  revert st. induction evs as [| ev evs IH]; intros st Hinv; [exact Hinv |].
  apply IH, step_single_flight, Hinv.
Qed.

Lemma initial_single_flight w : single_flight (initial w).
Proof. split; [reflexivity |]. intros r q. cbn. by rewrite lookup_empty. Qed.

Lemma single_flight_inflight st : single_flight st -> (inflight st <= 1)%nat.
Proof.
  unfold single_flight, single_flight_on. destruct (isRefreshing st).
  - intros (r & q & _ & _ & _ & ->). destruct (posting (phase q)); lia.
  - intros [-> _]. lia.
Qed.

(** C3: a request starts with the retried flag clear; along every run the
    flag is set at most once and the request is issued again at most once,
    counting the retries that are still to come; and when an attempt of a
    request whose flag is set fails, with status 401 or any other, the
    request is rejected with the parsed error and not issued again. *)
Theorem at_most_one_retry :
  (forall st r,
     requests st !! r = None ->
     exists q, requests (step st (Call r)) !! r = Some q
               /\ _retry q = false /\ retry_sets q = 0%nat
               /\ reissues q = 0%nat)
  /\ (forall w evs r q,
        let st := run evs (initial w) in
        requests st !! r = Some q ->
        (retry_sets q <= 1)%nat
        /\ (reissues q + pending_retries r q (refreshSubscribers st) <= 1)%nat
        /\ (_retry q = false -> retry_sets q = 0%nat /\ reissues q = 0%nat))
  /\ (forall st r q error,
        requests st !! r = Some q ->
        phase q = InTransport ->
        _retry q = true ->
        step st (TransportFails r error)
        = update_request r
            (set_phase (Rejected (parseApiError (JsObject error)))) st).
Proof.
  split; [| split].
  - intros st r Hr. cbn [step]. rewrite Hr. cbn.
    rewrite lookup_insert_eq. exists new_request. auto.
  - intros w evs r q st Hq.
    pose proof (run_retry_bounded evs _ (initial_retry_bounded w) r) as Hb.
    fold st in Hb. rewrite Hq in Hb. unfold retry_budget in Hb.
    destruct Hb as [Hsets Hre]. destruct (_retry q).
    + repeat split; try lia; discriminate.
    + repeat split; lia.
  - intros st r q error Hq Hp Hretry. cbn [step]. rewrite Hq, Hp.
    unfold response_error. rewrite Hretry, andb_false_r. reflexivity.
Qed.

(** *** Refresh failure *)

Lemma credentials_cleared_redirect p b :
  credentials_cleared (redirectToLogin p (Some b)).
Proof.
  unfold credentials_cleared, getItem, AUTH_TOKEN_KEY, REFRESH_TOKEN_KEY,
    TOKEN_EXPIRY_KEY, USER_KEY. cbn. by simplify_map_eq.
Qed.

Lemma login_url_path p :
  p <> "" ->
  login_url (Some p) = ("/auth/login?returnUrl=" ++ encodeURIComponent p)%string.
Proof.
  intros Hp. unfold login_url. cbn.
  destruct (String.eqb_spec p ""); [contradiction | reflexivity].
Qed.

Lemma settle_failure o st :
  produced o = None ->
  refreshToken_settle o st = (post_settled st, Returned None).
Proof.
  unfold produced, refreshToken_settle.
  destruct o as [[body |] |]; try reflexivity.
  destruct (truthy_str (Some (accessToken body))); [discriminate | reflexivity].
Qed.

(** C2, amended: when the refresh exchange fails, the flag is cleared, the
    four stored fields are removed, and the login URL with the current path
    is assigned once; the subscriber list and the other chains are left as
    they were. *)
Theorem refresh_failure_ends_session st r q b o :
  win st = Some b ->
  pathname b <> "" ->
  requests st !! r = Some q ->
  posting (phase q) = true ->
  produced o = None ->
  let st' := run [RefreshResponds r o; Continue r] st in
  isRefreshing st' = false
  /\ credentials_cleared (win st')
  /\ navigations <$> win st'
     = Some (navigations b ++ [session_ended_signal b])
  /\ refreshSubscribers st' = refreshSubscribers st
  /\ (forall r', r' <> r -> requests st' !! r' = requests st !! r').
Proof.
  intros Hwin Hpath Hq Hpost Hfail. cbn [run fold_left step].
  rewrite Hq. cbn [fmap option_fmap option_map].
  destruct (phase q) as [| [|] | | | error [|] | | |] eqn:Hp;
    try discriminate Hpost; rewrite (settle_failure _ _ Hfail);
    cbn [update_request set_requests requests post_settled];
    rewrite lookup_alter_eq, Hq; cbn [fmap option_fmap option_map];
    cbn [phase set_phase];
    unfold request_interceptor_resume, response_error_resume, redirect;
    cbn; rewrite Hwin; cbn;
    (split; [reflexivity |]);
    (split; [apply (credentials_cleared_redirect (Some (pathname b)) b) |]);
    (split; [unfold session_ended_signal; rewrite <- login_url_path by exact Hpath;
             reflexivity |]);
    (split; [reflexivity |]);
    intros r' Hne; by rewrite !alter_other.
Qed.

(** *** One proactive refresh for concurrent sends *)

Lemma run_app l1 l2 (st : State) : run (l1 ++ l2) st = run l2 (run l1 st).
Proof. apply fold_left_app. Qed.

Lemma run_calls rs st :
  let st' := run (Call <$> rs) st in
  win st' = win st
  /\ isRefreshing st' = isRefreshing st
  /\ refreshSubscribers st' = refreshSubscribers st
  /\ exchanges st' = exchanges st
  /\ (forall r q, requests st !! r = Some q -> requests st' !! r = Some q)
  /\ (forall r, r ∈ rs -> requests st !! r = None ->
                requests st' !! r = Some new_request).
Proof.
  revert st. induction rs as [| r rs IH]; intros st; cbn zeta.
  - cbn. repeat split; try reflexivity; [auto |].
    intros r Hr. by apply elem_of_nil in Hr.
  - change (run (Call <$> r :: rs) st)
      with (run (Call <$> rs) (step st (Call r))).
    destruct (IH (step st (Call r))) as (E1 & E2 & E3 & E4 & Hkeep & Hnew).
    cbn zeta in *. cbn [step] in *.
    destruct (requests st !! r) as [q0 |] eqn:Hr.
    + repeat split; try assumption.
      intros r0 Hin Hnone. apply elem_of_cons in Hin as [-> | Hin];
        [congruence | by apply Hnew].
    + cbn in E1, E2, E3, E4, Hkeep, Hnew.
      repeat split; try assumption.
      * intros r0 q Hq. apply Hkeep. rewrite lookup_insert_ne; [exact Hq |].
        intros ->. congruence.
      * intros r0 Hin Hnone. destruct (decide (r0 = r)) as [-> | Hne].
        -- apply Hkeep. apply lookup_insert_eq.
        -- apply elem_of_cons in Hin as [-> | Hin]; [congruence |].
           apply Hnew; [exact Hin |]. rewrite lookup_insert_ne; [exact Hnone |].
           congruence.
Qed.

Lemma leader_starts st leader now queued q :
  isRefreshing st = false ->
  exchanges st = 0%nat ->
  refreshSubscribers st = [] ->
  truthy_str (getAccessToken (win st)) = true ->
  isTokenExpiringSoon (win st) now = true ->
  truthy_str (getRefreshToken (win st)) = true ->
  requests st !! leader = Some q ->
  phase q = Queued ->
  (forall r, r ∈ queued ->
             exists q, requests st !! r = Some q /\ phase q = Queued) ->
  leader ∉ queued ->
  refreshing (step st (RunRequestInterceptor leader now)) leader PostPending
    [] queued.
Proof.
  intros Hidle Hex Hsubs Htok Hsoon Href Hq Hp Hqueued Hnot.
  cbn [step]. rewrite Hq. cbn [fmap option_fmap option_map]. rewrite Hp.
  unfold request_interceptor, refreshToken_call.
  rewrite Htok, Hsoon, Hidle. cbn [andb negb].
  change (win (set_isRefreshing true st)) with (win st).
  rewrite Href. unfold refreshing. cbn -[getAccessToken].
  rewrite Htok, Hex, Hsubs.
  repeat split; try reflexivity.
  - exists (set_phase (ReqAwaitRefresh PostPending) q).
    by rewrite lookup_alter_eq, Hq.
  - intros r Hr. by apply elem_of_nil in Hr.
  - intros r Hr. rewrite alter_other; [by apply Hqueued |].
    intros ->. contradiction.
Qed.

Lemma follower_waits st leader c waiting r now queued :
  refreshing st leader c waiting (r :: queued) ->
  r <> leader -> r ∉ waiting -> r ∉ queued ->
  refreshing (step st (RunRequestInterceptor r now)) leader c
    (waiting ++ [r]) queued.
Proof.
  intros (Hbusy & Htok & Hex & Hsubs & (ql & Hql & Hpl) & Hwait & Hqueued)
    Hne Hnw Hnq.
  destruct (Hqueued r) as (q & Hq & Hp); [apply elem_of_cons; auto |].
  cbn [step]. rewrite Hq. cbn [fmap option_fmap option_map]. rewrite Hp.
  unfold request_interceptor. rewrite Htok, Hbusy, andb_false_r.
  unfold refreshing. cbn -[getAccessToken].
  rewrite Htok, Hex, Hsubs, fmap_app.
  repeat split; try reflexivity; try assumption.
  - exists ql. rewrite alter_other by congruence. auto.
  - intros r' Hr'. apply elem_of_app in Hr' as [Hr' | Hr'].
    + rewrite alter_other; [by apply Hwait |]. intros ->. contradiction.
    + apply list_elem_of_singleton in Hr' as ->.
      exists (set_phase ReqWaiting q). by rewrite lookup_alter_eq, Hq.
  - intros r' Hr'. rewrite alter_other.
    + apply Hqueued, elem_of_cons. auto.
    + intros ->. contradiction.
Qed.

Lemma followers_wait l st leader c waiting queued :
  refreshing st leader c waiting ((fst <$> l) ++ queued) ->
  NoDup (leader :: waiting ++ (fst <$> l) ++ queued) ->
  refreshing (run (followers l) st) leader c (waiting ++ (fst <$> l)) queued.
Proof.
  revert st waiting. induction l as [| [r now] l IH]; intros st waiting Hst Hnd.
  - cbn. rewrite app_nil_r. exact Hst.
  - cbn [followers fmap list_fmap run fold_left fst snd] in *.
    apply NoDup_cons in Hnd as [Hlead Hnd].
    apply NoDup_app in Hnd as (Hndw & Hdisj & Hnd).
    cbn [app] in *. apply NoDup_cons in Hnd as [Hr Hnd].
    replace (waiting ++ r :: (fst <$> l))
      with ((waiting ++ [r]) ++ (fst <$> l)) by by rewrite <- app_assoc.
    apply IH.
    + apply follower_waits; [exact Hst | | |].
      * intros ->. apply Hlead. apply elem_of_app. right.
        apply elem_of_cons. auto.
      * intros Hin. apply (Hdisj r Hin). apply elem_of_cons. auto.
      * exact Hr.
    + apply NoDup_cons. split.
      * intros Hin. apply Hlead.
        rewrite !elem_of_app in Hin. rewrite !elem_of_app, elem_of_cons.
        rewrite list_elem_of_singleton in Hin. rewrite elem_of_app. tauto.
      * rewrite <- app_assoc. cbn [app]. apply NoDup_app.
        repeat split; [exact Hndw | exact Hdisj |].
        apply NoDup_cons. auto.
Qed.

Lemma truthy_token_window w :
  truthy_str (getAccessToken w) = true -> exists b, w = Some b.
Proof. destruct w as [b |]; [eauto | discriminate]. Qed.

Lemma settle_refreshing st leader waiting queued o :
  refreshing st leader PostPending waiting queued ->
  leader ∉ waiting -> leader ∉ queued ->
  refreshing (step st (RefreshResponds leader o)) leader
    (Returned (produced o)) waiting queued.
Proof.
  intros (Hbusy & Htok & Hex & Hsubs & (ql & Hql & Hpl) & Hwait & Hqueued)
    Hnw Hnq.
  cbn [step]. rewrite Hql. cbn [fmap option_fmap option_map]. rewrite Hpl.
  assert (forall st1,
            isRefreshing st1 = true ->
            truthy_str (getAccessToken (win st1)) = true ->
            exchanges st1 = 1%nat ->
            refreshSubscribers st1 = SubRequest <$> waiting ->
            requests st1 = requests st ->
            refreshing
              (update_request leader
                 (set_phase (ReqAwaitRefresh (Returned (produced o)))) st1)
              leader (Returned (produced o)) waiting queued) as Hgoal.
  { intros st1 B T E S R. repeat split; cbn; try assumption; rewrite R.
    - exists (set_phase (ReqAwaitRefresh (Returned (produced o))) ql).
      by rewrite lookup_alter_eq, Hql.
    - intros r Hr. rewrite alter_other; [by apply Hwait |].
      intros ->. contradiction.
    - intros r Hr. rewrite alter_other; [by apply Hqueued |].
      intros ->. contradiction. }
  unfold refreshToken_settle.
  destruct o as [[body |] |]; cbn [produced] in Hgoal |- *;
    [destruct (truthy_str (Some (accessToken body))) eqn:Hbody | |];
    apply Hgoal; try assumption; try reflexivity.
  cbn [win set_win post_settled].
  destruct (truthy_token_window _ Htok) as [b ->].
  unfold getAccessToken. rewrite AuthSpec.storeAuthData_access. exact Hbody.
Qed.

Lemma fold_requests_other token r waiting q :
  r ∉ waiting ->
  fold_left (apply_sub token r) (SubRequest <$> waiting) q = q.
Proof.
  induction waiting as [| r0 waiting IH]; intros Hnot; [reflexivity |].
  apply not_elem_of_cons in Hnot as [Hne Hnot].
  cbn [fmap list_fmap fold_left apply_sub].
  destruct (decide (r0 = r)); [congruence | by apply IH].
Qed.

Lemma fold_requests_stable token r waiting q :
  phase q = InTransport ->
  Authorization q = Some (bearer token) ->
  let q' := fold_left (apply_sub token r) (SubRequest <$> waiting) q in
  phase q' = InTransport /\ Authorization q' = Some (bearer token).
Proof.
  revert q. induction waiting as [| r0 waiting IH]; intros q Hp Ha; [auto |].
  cbn [fmap list_fmap fold_left apply_sub].
  destruct (decide (r0 = r)); [| by apply IH].
  apply IH; unfold resolve_config; rewrite Hp; cbn; auto.
Qed.

Lemma fold_requests_resolved token r waiting q :
  r ∈ waiting ->
  phase q = ReqWaiting ->
  let q' := fold_left (apply_sub token r) (SubRequest <$> waiting) q in
  phase q' = InTransport /\ Authorization q' = Some (bearer token).
Proof.
  revert q. induction waiting as [| r0 waiting IH]; intros q Hin Hp.
  - by apply elem_of_nil in Hin.
  - cbn [fmap list_fmap fold_left apply_sub].
    destruct (decide (r0 = r)) as [-> | Hne].
    + apply fold_requests_stable; unfold resolve_config; rewrite Hp;
        reflexivity.
    + apply elem_of_cons in Hin as [-> | Hin]; [congruence |]. by apply IH.
Qed.

Lemma leader_resumes st leader token waiting :
  refreshing st leader (Returned (Some token)) waiting [] ->
  truthy_str (Some token) = true ->
  leader ∉ waiting ->
  forall r, r ∈ leader :: waiting ->
            sent_with token (step st (Continue leader)) r.
Proof.
  intros (Hbusy & Htok & Hex & Hsubs & (ql & Hql & Hpl) & Hwait & _)
    Htruthy Hnw r Hr.
  cbn [step]. rewrite Hql. cbn [fmap option_fmap option_map]. rewrite Hpl.
  unfold request_interceptor_resume, sent_with. rewrite Htruthy. cbn.
  rewrite Hsubs. destruct (decide (r = leader)) as [-> | Hne].
  - rewrite lookup_alter_eq, fold_call_lookup, lookup_alter_eq, Hql. cbn.
    rewrite fold_requests_other by exact Hnw. eexists. split; [reflexivity |].
    split; reflexivity.
  - apply elem_of_cons in Hr as [-> | Hr]; [congruence |].
    destruct (Hwait r Hr) as (q & Hq & Hp).
    rewrite alter_other, fold_call_lookup, alter_other, Hq by exact Hne. cbn.
    eexists. split; [reflexivity |].
    by apply fold_requests_resolved.
Qed.

Lemma exchanges_continue st r :
  exchanges (step st (Continue r)) = exchanges st.
Proof.
  cbn [step]. destruct (requests st !! r) as [q |]; [| reflexivity].
  cbn [fmap option_fmap option_map].
  destruct (phase q) as [| [| newToken] | | | ? [| newToken] | | |];
    try reflexivity;
    unfold request_interceptor_resume, response_error_resume;
    destruct (truthy_str newToken); reflexivity.
Qed.

Lemma produced_truthy o token :
  produced o = Some token -> truthy_str (Some token) = true.
Proof.
  unfold produced. destruct o as [[body |] |]; try discriminate.
  destruct (truthy_str (Some (accessToken body))) eqn:Hb; [| discriminate].
  by intros [= <-].
Qed.

Lemma sends_reach_continue b token refresh leader now early o late :
  getAccessToken (Some b) = Some token -> token <> "" ->
  getRefreshToken (Some b) = Some refresh -> refresh <> "" ->
  isTokenExpiringSoon (Some b) now = true ->
  NoDup (leader :: (fst <$> (early ++ late))) ->
  exists st,
    run (concurrent_sends leader now early o late) (initial (Some b))
    = step st (Continue leader)
    /\ refreshing st leader (Returned (produced o)) (fst <$> (early ++ late)) [].
Proof.
  intros Htok Htne Href Hrne Hsoon Hnd.
  unfold concurrent_sends. rewrite !run_app.
  set (rs := leader :: (fst <$> (early ++ late))) in *.
  destruct (run_calls rs (initial (Some b)))
    as (E1 & E2 & E3 & E4 & _ & Hnew).
  cbn zeta in *. cbn [initial win isRefreshing refreshSubscribers exchanges
                        requests] in E1, E2, E3, E4, Hnew.
  set (st1 := run (Call <$> rs) (initial (Some b))) in *.
  eexists. split; [reflexivity |].
  pose proof Hnd as Hnd'. apply NoDup_cons in Hnd' as [Hlead Hnd'].
  rewrite fmap_app in Hlead, Hnd' |- *.
  assert (refreshing (run [RunRequestInterceptor leader now] st1) leader
            PostPending [] ((fst <$> early) ++ (fst <$> late))) as Hst.
  { apply (leader_starts st1 leader now _ new_request);
      rewrite ?E1; try assumption; try reflexivity.
    - rewrite Htok. cbn. by destruct (String.eqb_spec token "").
    - rewrite Href. cbn. by destruct (String.eqb_spec refresh "").
    - apply Hnew; [apply elem_of_cons; auto | apply lookup_empty].
    - intros r Hr. exists new_request. split; [| reflexivity].
      apply Hnew; [| apply lookup_empty].
      subst rs. rewrite fmap_app. apply elem_of_cons. auto. }
  apply followers_wait in Hst;
    [| unfold rs in Hnd; rewrite fmap_app in Hnd; exact Hnd].
  cbn [app] in Hst.
  apply (settle_refreshing _ _ _ _ o) in Hst;
    [| rewrite elem_of_app in Hlead; tauto
     | rewrite elem_of_app in Hlead; tauto].
  rewrite <- (app_nil_r (fst <$> late)) in Hst.
  apply followers_wait in Hst; [exact Hst |].
  rewrite app_nil_r. apply NoDup_cons. auto.
Qed.

(** C1, amended: with an access token that expires soon and a refresh token
    stored, [N] concurrent sends cause exactly one refresh exchange, however
    it ends; at no point of the schedule are two exchanges in flight; and
    when the exchange produces an access token, all [N] requests go to the
    transport carrying it. *)
Theorem single_flight_refresh b token refresh leader now early o late :
  getAccessToken (Some b) = Some token -> token <> "" ->
  getRefreshToken (Some b) = Some refresh -> refresh <> "" ->
  isTokenExpiringSoon (Some b) now = true ->
  NoDup (leader :: (fst <$> (early ++ late))) ->
  let evs := concurrent_sends leader now early o late in
  let st' := run evs (initial (Some b)) in
  exchanges st' = 1%nat
  /\ (forall n, (inflight (run (take n evs) (initial (Some b))) <= 1)%nat)
  /\ (forall newToken,
        produced o = Some newToken ->
        forall r, r ∈ leader :: (fst <$> (early ++ late)) ->
                  sent_with newToken st' r).
Proof.
  intros Htok Htne Href Hrne Hsoon Hnd evs st'.
  destruct (sends_reach_continue b token refresh leader now early o late
              Htok Htne Href Hrne Hsoon Hnd) as (st & Hrun & Hst).
  apply NoDup_cons in Hnd as [Hlead _].
  subst st' evs. rewrite Hrun. split; [| split].
  - rewrite exchanges_continue. apply Hst.
  - intros n. apply single_flight_inflight, run_single_flight,
      initial_single_flight.
  - intros newToken Hprod r Hr. rewrite Hprod in Hst.
    eapply leader_resumes;
      [exact Hst | eapply produced_truthy, Hprod | exact Hlead | exact Hr].
Qed.

End WithRuntime.

(** *** Evaluation on the demo runtime *)

Import Demo Scenarios.

(** Token far from expiry: the header is attached, nothing is refreshed. *)
Example valid_token_no_refresh :
  let st := run [Call 1; RunRequestInterceptor 1 1000] (initial far_from_expiry) in
  exchanges st = 0%nat
  /\ requests st !! 1%nat
     = Some {| Authorization := Some "Bearer exp=9000"; _retry := false;
               phase := InTransport; retry_sets := 0; reissues := 0 |}.
Proof. split; vm_compute; reflexivity. Qed.

Example three_sends_one_exchange :
  exchanges (run three_sends (initial near_expiry)) = 1%nat
  /\ (phase <$> requests (run three_sends (initial near_expiry)) !! 3%nat)
     = Some InTransport.
Proof. split; vm_compute; reflexivity. Qed.

Example retry_then_401_rejected :
  requests (run retry_then_401 (initial far_from_expiry)) !! 1%nat
  = Some retried_request.
Proof. vm_compute. reflexivity. Qed.

Lemma single_flight_refresh_witness :
  exchanges (run three_sends (initial near_expiry)) = 1%nat
  /\ (forall n,
        (inflight (run (take n three_sends) (initial near_expiry)) <= 1)%nat)
  /\ (forall newToken,
        produced (PostOk (Some refreshed)) = Some newToken ->
        forall r, r ∈ [1; 2; 3]%nat ->
                  sent_with newToken (run three_sends (initial near_expiry)) r).
Proof.
  apply (single_flight_refresh
           (browser [("auth_token", "exp=2000");
                     ("refresh_token", "refresh-old");
                     ("token_expiry", "2000000")])
           "exp=2000" "refresh-old" 1%nat 1800000 [(2%nat, 1800001)]
           (PostOk (Some refreshed)) [(3%nat, 1800002)]);
    [reflexivity | discriminate | reflexivity | discriminate
     | vm_compute; reflexivity |].
  cbn [fmap list_fmap app fst].
  repeat (apply NoDup_cons; split;
          [rewrite ?elem_of_cons, elem_of_nil; lia |]).
  apply NoDup_nil. done.
Defined.

(** C1, as stated: with a token that expires soon but no refresh token
    stored, a send causes no refresh exchange at all and the request goes
    out without a credential; and with a refresh token stored, when the one
    exchange fails, the leading request goes out without a credential and
    the waiting one does not go out. *)
Lemma single_flight_as_stated_fails :
  let st0 :=
    run (concurrent_sends 1 1800000 [] (PostOk (Some refreshed)) [])
        (initial near_expiry_no_refresh) in
  let st1 :=
    run (concurrent_sends 1 1800000 [(2%nat, 1800001)] PostFails [])
        (initial near_expiry) in
  truthy_str (getAccessToken near_expiry_no_refresh) = true
  /\ isTokenExpiringSoon near_expiry_no_refresh 1800000 = true
  /\ exchanges st0 <> 1%nat
  /\ ~ sent_with "exp=9000" st0 1
  /\ exchanges st1 = 1%nat
  /\ Authorization <$> requests st1 !! 1%nat = Some None
  /\ phase <$> requests st1 !! 2%nat = Some ReqWaiting.
Proof.
  cbn zeta. repeat split; try (vm_compute; reflexivity).
  - vm_compute. discriminate.
  - intros (q & Hq & _ & Ha). vm_compute in Hq.
    injection Hq as <-. discriminate Ha.
Qed.

Lemma refresh_failure_ends_session_witness :
  let st' := run [RefreshResponds 1 PostFails; Continue 1] leader_and_waiter in
  isRefreshing st' = false
  /\ credentials_cleared (win st')
  /\ navigations <$> win st' = Some ["/auth/login?returnUrl=/admin/blogs"]
  /\ refreshSubscribers st' = refreshSubscribers leader_and_waiter
  /\ (forall r', r' <> 1%nat ->
                 requests st' !! r' = requests leader_and_waiter !! r').
Proof.
  exact (refresh_failure_ends_session leader_and_waiter 1 leading_request
           (browser [("auth_token", "exp=2000");
                     ("refresh_token", "refresh-old");
                     ("token_expiry", "2000000")])
           PostFails
           ltac:(vm_compute; reflexivity) ltac:(discriminate)
           ltac:(vm_compute; reflexivity) eq_refl eq_refl).
Defined.

(** C2, as stated: after the failed refresh the queued waiter is not
    rejected; its chain still waits and its closure is still queued. *)
Lemma refresh_failure_leaves_waiter_pending :
  let st' := run [RefreshResponds 1 PostFails; Continue 1] leader_and_waiter in
  refreshSubscribers leader_and_waiter = [SubRequest 2]
  /\ ~ rejected st' 2
  /\ phase <$> requests st' !! 2%nat = Some ReqWaiting
  /\ refreshSubscribers st' = [SubRequest 2].
Proof.
  cbn zeta. repeat split; try (vm_compute; reflexivity).
  intros (q & err & Hq & Hp). vm_compute in Hq.
  injection Hq as <-. discriminate Hp.
Qed.

Lemma at_most_one_retry_witness :
  (retry_sets retried_request <= 1)%nat
  /\ (reissues retried_request
      + pending_retries 1 retried_request
          (refreshSubscribers (run retry_then_401 (initial far_from_expiry)))
      <= 1)%nat
  /\ (_retry retried_request = false ->
      retry_sets retried_request = 0%nat /\ reissues retried_request = 0%nat).
Proof.
  apply (proj1 (proj2 at_most_one_retry) far_from_expiry retry_then_401 1%nat
           retried_request).
  vm_compute. reflexivity.
Defined.

End HttpSpec.

(** ** Messages and formatting *)

Module ErrorFormatSpec.
Import Js ErrorHandler ErrorFormat.

Lemma truthy_nonempty s : truthy_str (Some s) = true -> s <> "".
Proof. cbn. destruct (String.eqb_spec s ""); [discriminate | auto]. Qed.

Lemma truthy_of_nonempty s : s <> "" -> truthy_str (Some s) = true.
Proof. intros Hs. cbn. by destruct (String.eqb_spec s ""). Qed.

Lemma status_message_nonempty st m lang :
  status_message st = Some m -> localize m lang <> "".
Proof.
  unfold status_message.
  repeat (match goal with
          | |- context [if ?c then _ else _] => destruct c
          end; [intros [= <-]; destruct lang; discriminate |]).
  discriminate.
Qed.

Lemma response_message_nonempty e lang m :
  response_message e lang = Some m -> m <> "".
Proof.
  unfold response_message. destruct (err_response e) as [r |]; [| discriminate].
  destruct (truthy_str (data r ≫= data_message)) eqn:Ht.
  - intros Hm. rewrite Hm in Ht. by apply truthy_nonempty.
  - destruct (negb (status r =? 0)); [| discriminate].
    destruct (status_message (status r)) as [l |] eqn:Hl; [| discriminate].
    intros [= <-]. eapply status_message_nonempty, Hl.
Qed.

(** X1: for an argument that is not a string, [getApiErrorMessage] never
    returns the empty string, in either language. *)
Theorem getApiErrorMessage_nonempty e lang :
  getApiErrorMessage (ArgValue e) lang <> "".
Proof.
  cbn [getApiErrorMessage].
  destruct (response_message e lang) as [m |] eqn:Hm;
    [eapply response_message_nonempty, Hm |].
  repeat (match goal with
          | |- context [if ?c then _ else _] => destruct c eqn:?
          end; try (destruct lang; discriminate)).
  destruct (err_message e) as [m |]; [| discriminate].
  by apply truthy_nonempty.
Qed.

(** X2: a response whose status has no catalogue entry and whose body has
    no message is reported with the network message as soon as the error
    carries its request and no timeout signal. *)
Theorem unlisted_status_reads_as_network e r lang :
  response e = Some r ->
  truthy_str (data r ≫= data_message) = false ->
  status_message (status r) = None ->
  request e = true ->
  isTimeoutError (JsObject e) = false ->
  getApiErrorMessage (ArgValue (JsObject e)) lang
  = localize network_message lang.
Proof.
  intros Hr Hm Hs Hreq Ht. cbn [getApiErrorMessage].
  unfold response_message, isTimeoutError in *. cbn [err_response] in *.
  rewrite Hr, Hm, Hs. cbn [fmap option_fmap option_map].
  destruct (negb (status r =? 0)); rewrite Ht; cbn [err_request];
    rewrite Hreq;
    destruct (str_is (err_code (JsObject e)) "ERR_NETWORK"
              || opt_includes (err_message (JsObject e)) "Network Error");
    reflexivity.
Qed.

Lemma unlisted_status_reads_as_network_witness :
  getApiErrorMessage
    (ArgValue
       (JsObject {| response := Some {| status := 429; data := None |};
                    request := true; code := Some "ERR_BAD_REQUEST";
                    message := Some "Request failed with status code 429" |}))
    en
  = "Network error. Please check your internet connection".
Proof.
  apply (unlisted_status_reads_as_network _ {| status := 429; data := None |});
    reflexivity.
Defined.

(** X3: the flags of [formatError] against the stand-alone predicates: the
    auth, permission and retryable flags agree with [isAuthError],
    [isForbiddenError] and [isRetryableError]; the validation flag is
    [isValidationError] except under status 401 or 403; and a retryable
    error carries none of the three other flags. *)
Theorem formatError_flags error lang :
  let f := formatError error lang in
  let e := arg_value error in
  fe_isAuthError f = isAuthError e
  /\ fe_isPermissionError f = isForbiddenError e
  /\ fe_isValidationError f
     = isValidationError e && negb (isAuthError e) && negb (isForbiddenError e)
  /\ fe_isRetryable f = isRetryableError e
  /\ fe_isRetryable f
     && (fe_isAuthError f || fe_isPermissionError f || fe_isValidationError f)
     = false.
Proof.
  cbn zeta. set (e := arg_value error).
  unfold formatError. fold e.
  cbn [fe_isAuthError fe_isPermissionError fe_isValidationError fe_isRetryable].
  assert (type_eqb (getErrorType e) retryable = isRetryableError e) as Hre
    by (unfold isRetryableError; destruct (getErrorType e); reflexivity).
  assert (type_eqb (getErrorType e) retryable
          && (category_eqb (getErrorCategory e) auth
              || category_eqb (getErrorCategory e) permission
              || category_eqb (getErrorCategory e) validation) = false) as Hex.
  { unfold getErrorType. destruct (getErrorCategory e); try reflexivity;
      cbn; destruct (truthy_str (err_data_message e)); reflexivity. }
  split; [| split; [| split; [| split; [exact Hre | exact Hex]]]];
    clear Hre Hex;
    unfold getErrorCategory, isAuthError, isForbiddenError, isValidationError;
    generalize (str_is (err_code e) "ERR_NETWORK"
                || opt_includes (err_message e) "Network Error"
                || negb (bool_decide (is_Some (err_response e))));
    generalize (str_is (err_code e) "ECONNABORTED"
                || opt_includes (err_message e) "timeout");
    generalize (truthy_str (err_data_message e));
    intros biz tmo net;
    destruct (err_has_errors e);
    (destruct (err_status e) as [s |]; cbn [num_is status_ge_500];
     [destruct (Z.eqb_spec s 401) as [-> | H401]; [reflexivity |];
      destruct (Z.eqb_spec s 403) as [-> | H403]; [reflexivity |];
      destruct (s =? 422), (s =? 404), (s =? 409),
        (negb (s =? 0) && (500 <=? s)) |]);
    destruct net, tmo, biz; reflexivity.
Qed.

(** X4: what [parseApiError] makes of an object that is not an [AppError]:
    the message is never empty; with a response the error is operational
    and keeps the status only when it is 400, 401, 403, 404, 409 or 422,
    every other status becoming 500; without a response it is not
    operational, with status 0 when a request was made and 500 otherwise. *)
Theorem parseApiError_result e :
  exists a,
    parseApiError (JsObject e) = Returns a
    /\ app_message a <> ""
    /\ match response e with
       | Some r =>
           isOperational a = true
           /\ statusCode a
              = (if bool_decide (status r ∈ parsed_statuses) then status r
                 else 500)
       | None =>
           isOperational a = false
           /\ statusCode a = (if request e then 0 else 500)
       end.
Proof.
  exists (parse_object e). split; [reflexivity |].
  unfold parse_object. destruct (response e) as [r |].
  - set (m := default "An error occurred" _).
    assert (m <> "") as Hm.
    { subst m. unfold or_str.
      destruct (truthy_str (if truthy_str (data r ≫= data_message)
                            then data r ≫= data_message
                            else data r ≫= data_error)) eqn:Ht;
        [| discriminate].
      destruct (if truthy_str (data r ≫= data_message)
                then data r ≫= data_message
                else data r ≫= data_error) as [s |]; [| discriminate].
      by apply truthy_nonempty. }
    unfold error_for_status, parsed_statuses.
    repeat match goal with
           | |- context [if status r =? ?k then _ else _] =>
               destruct (Z.eqb_spec (status r) k) as [Heq | ?];
               [rewrite Heq; repeat split; first [exact Hm | reflexivity] |]
           end.
    repeat split; [exact Hm |]. cbn [statusCode mkAppError].
    rewrite bool_decide_eq_false_2; [reflexivity |].
    rewrite !elem_of_cons, elem_of_nil. lia.
  - destruct (request e); cbn; [repeat split; discriminate |].
    repeat split. unfold or_str.
    destruct (message e) as [s |]; cbn; [| discriminate].
    destruct (String.eqb_spec s ""); cbn; [discriminate | assumption].
Qed.

(** X5: an [AppError], which is what the response interceptor rejects
    with, has no [response]: [formatError] files it under network,
    retryable, never under auth, whatever its status code. *)
Theorem rejected_error_is_network a lang :
  let f := formatError (ArgValue (JsAppError a)) lang in
  fe_category f = network
  /\ fe_type f = retryable
  /\ fe_isRetryable f = true
  /\ fe_isAuthError f = false
  /\ fe_status f = None
  /\ fe_isBusinessError f = false.
Proof.
  cbn zeta. unfold formatError. cbn [arg_value].
  assert (getErrorCategory (JsAppError a) = network) as Hc.
  { unfold getErrorCategory. cbn. by rewrite !orb_true_r. }
  unfold getErrorType. rewrite Hc. repeat split; reflexivity.
Qed.

(** X6: a server message goes through [parseApiError] and is given back by
    [getApiErrorMessage], unless it contains "Network Error" or "timeout",
    in which case the catalogue message takes its place. *)
Theorem server_message_after_parsing e r d m lang :
  response e = Some r ->
  data r = Some d ->
  data_message d = Some m ->
  m <> "" ->
  exists a,
    parseApiError (JsObject e) = Returns a
    /\ app_message a = m
    /\ getApiErrorMessage (ArgValue (JsAppError a)) lang
       = (if includes m "Network Error" then localize network_message lang
          else if includes m "timeout" then localize timeout_message lang
          else m).
Proof.
  intros Hr Hd Hm Hne. exists (parse_object e). split; [reflexivity |].
  assert (app_message (parse_object e) = m) as Ha.
  { unfold parse_object. rewrite Hr, Hd. cbn [mbind option_bind].
    rewrite Hm. unfold or_str. rewrite (truthy_of_nonempty m Hne).
    rewrite (truthy_of_nonempty m Hne). cbn [default from_option id].
    unfold error_for_status.
    repeat (match goal with
            | |- context [if ?c then _ else _] => destruct c
            end; try reflexivity). }
  split; [exact Ha |].
  cbn [getApiErrorMessage]. unfold response_message.
  cbn [err_response err_code err_message err_request str_is opt_includes orb].
  rewrite Ha. destruct (includes m "Network Error"); [reflexivity |].
  destruct (includes m "timeout"); [reflexivity |].
  by rewrite (truthy_of_nonempty m Hne).
Qed.

Lemma server_message_after_parsing_witness :
  exists a,
    parseApiError
      (JsObject {| response :=
                     Some {| status := 409;
                             data := Some {| data_message := Some "Slug already exists";
                                             data_error := None;
                                             data_errors := None |} |};
                   request := true; code := Some "ERR_BAD_REQUEST";
                   message := Some "Request failed with status code 409" |})
    = Returns a
    /\ app_message a = "Slug already exists"
    /\ getApiErrorMessage (ArgValue (JsAppError a)) vi = "Slug already exists".
Proof.
  apply (server_message_after_parsing _
           {| status := 409;
              data := Some {| data_message := Some "Slug already exists";
                              data_error := None; data_errors := None |} |}
           {| data_message := Some "Slug already exists";
              data_error := None; data_errors := None |}
           "Slug already exists" vi);
    [reflexivity | reflexivity | reflexivity | discriminate].
Defined.

Example session_timeout_message_replaced :
  getApiErrorMessage
    (ArgValue (JsAppError (mkAppError UnauthorizedError "Session timeout" 401 true)))
    en
  = "Request timeout. Please try again".
Proof. reflexivity. Qed.

End ErrorFormatSpec.

(** ** Token lifecycle: clearing, round trips, the timer *)

Module AuthSpec2.
Import Js ErrorHandler Auth AuthTimer HttpInv.
Local Open Scope list_scope.

Section WithRuntime.
Context `{Runtime}.

Ltac keys :=
  unfold getAccessToken, getRefreshToken, getItem, setItem, removeItem,
    AUTH_TOKEN_KEY, REFRESH_TOKEN_KEY, TOKEN_EXPIRY_KEY, USER_KEY in *;
  cbn [mbind option_bind localStorage fmap option_fmap option_map] in *.

Lemma getTokenExpiry_absent w :
  getItem TOKEN_EXPIRY_KEY w = None -> getTokenExpiry w = None.
Proof. intros Hw. unfold getTokenExpiry. by rewrite Hw. Qed.

Lemma not_expiring_without_expiry w now :
  getTokenExpiry w = None ->
  isTokenExpiringSoon w now = false /\ isTokenExpired w now = false.
Proof.
  intros Hw. unfold isTokenExpiringSoon, isTokenExpired. by rewrite Hw.
Qed.

Lemma clearAuthData_cleared w : credentials_cleared (clearAuthData w).
Proof.
  destruct w as [b |]; [| repeat split].
  unfold credentials_cleared. keys. by simplify_map_eq.
Qed.

Lemma getTokenExpiry_store_undecodable d b :
  getTokenExpiryFromJwt (accessToken d) = None ->
  getTokenExpiry (storeAuthData d (Some b)) = getTokenExpiry (Some b).
Proof.
  intros Ht. unfold getTokenExpiry.
  by rewrite AuthSpec.storeAuthData_expiry, Ht.
Qed.



Lemma parseInt_double s z :
  parseInt s = JNum z -> nearest_double z = JNum z.
Proof.
  unfold parseInt. destruct (skip_ws s) as [| c rest]; [discriminate |].
  destruct (Ascii.eqb c "-"), (Ascii.eqb c "+");
    match goal with
    | |- num_of ?v = _ -> _ => destruct v as [y |]
    end; cbn [num_of]; try discriminate; apply AuthSpec.nearest_double_idem.
Qed.

Lemma getTokenExpiry_double w z :
  getTokenExpiry w = Some (JNum z) -> nearest_double z = JNum z.
Proof.
  unfold getTokenExpiry. destruct (getItem TOKEN_EXPIRY_KEY w) as [s |];
    [| discriminate].
  destruct (truthy_str (Some s)); [| discriminate].
  intros [= Hs]. eapply parseInt_double, Hs.
Qed.

Lemma ge_mono now now' y :
  now <= now' ->
  num_ge (JNum now) y = true -> num_ge (JNum now') y = true.
Proof.
  intros Hle. destruct y as [| s | x]; cbn [num_ge]; [done | done |].
  rewrite !Z.leb_le. lia.
Qed.

(** X7: [clearAuthData] removes the four fields, after which nobody is
    authenticated and nothing is expiring; it touches no other key and no
    navigation, and clearing twice is clearing once. *)
Theorem clearAuthData_clears w now :
  let w' := clearAuthData w in
  credentials_cleared w'
  /\ isAuthenticated w' now = false
  /\ isTokenExpiringSoon w' now = false
  /\ (forall k, k ∉ [AUTH_TOKEN_KEY; REFRESH_TOKEN_KEY; TOKEN_EXPIRY_KEY;
                     USER_KEY] ->
                getItem k w' = getItem k w)
  /\ navigations <$> w' = navigations <$> w
  /\ clearAuthData w' = w'.
Proof.
  cbn zeta.
  pose proof (clearAuthData_cleared w) as Hc.
  split; [exact Hc |]. destruct Hc as (Ha & _ & He & _).
  split; [| split; [| split; [| split]]].
  - unfold isAuthenticated, getAccessToken. by rewrite Ha.
  - by apply not_expiring_without_expiry, getTokenExpiry_absent.
  - intros k Hk. rewrite !not_elem_of_cons in Hk.
    destruct Hk as (K1 & K2 & K3 & K4 & _).
    destruct w as [b |]; [| reflexivity]. unfold clearAuthData. keys.
    by rewrite !lookup_delete_ne.
  - by destruct w.
  - destruct w as [b |]; [| reflexivity]. cbn. f_equal.
    unfold removeItem. cbn. f_equal.
    apply map_eq. intros k. rewrite !lookup_delete.
    repeat case_decide; reflexivity.
Qed.


(** X9: a token whose expiry does not decode inherits the expiry stored
    before it: over an expired session, a freshly stored non-empty token is
    reported expired and not authenticated. *)
Theorem storeAuthData_undecodable_inherits_expiry d b now :
  getTokenExpiryFromJwt (accessToken d) = None ->
  let w' := storeAuthData d (Some b) in
  getTokenExpiry w' = getTokenExpiry (Some b)
  /\ isTokenExpired w' now = isTokenExpired (Some b) now
  /\ (accessToken d <> "" ->
      isAuthenticated w' now = negb (isTokenExpired (Some b) now)).
Proof.
  intros Ht w'.
  assert (getTokenExpiry w' = getTokenExpiry (Some b)) as He
    by (by apply getTokenExpiry_store_undecodable).
  assert (isTokenExpired w' now = isTokenExpired (Some b) now) as Hexp
    by (unfold isTokenExpired; by rewrite He).
  split; [exact He |]. split; [exact Hexp |].
  intros Hne. unfold isAuthenticated. rewrite Hexp.
  subst w'. unfold getAccessToken.
  rewrite AuthSpec.storeAuthData_access. cbn.
  destruct (String.eqb_spec (accessToken d) ""); [contradiction |]. cbn.
  by destruct (isTokenExpired (Some b) now).
Qed.

(** X10: an expired token is expiring soon, and both predicates, once
    true, stay true as time passes. *)
Theorem expiry_predicates_monotone w now now' :
  (isTokenExpired w now = true -> isTokenExpiringSoon w now = true)
  /\ (now <= now' ->
      isTokenExpiringSoon w now = true -> isTokenExpiringSoon w now' = true)
  /\ (now <= now' ->
      isTokenExpired w now = true -> isTokenExpired w now' = true).
Proof.
  unfold isTokenExpired, isTokenExpiringSoon.
  destruct (getTokenExpiry w) as [e |] eqn:He;
    [| cbn; repeat split; congruence].
  destruct (falsy_num (Some e)) eqn:Hf; [repeat split; congruence |].
  split; [| split; intros Hle; by apply ge_mono].
  destruct e as [| s | z]; [discriminate Hf | by destruct s |].
  cbn [num_ge num_sub]. intros Hle%Z.leb_le.
  pose proof (AuthSpec.nearest_double_le_double (z - REFRESH_THRESHOLD) z
                ltac:(unfold REFRESH_THRESHOLD; lia)
                (getTokenExpiry_double w z He)) as Hle'.
  destruct (nearest_double (z - REFRESH_THRESHOLD)) as [| s | x];
    [contradiction | exact Hle' | apply Z.leb_le; lia].
Qed.

(** X11: a firing of the refresh timer clears the interval exactly when
    nobody is authenticated, and then changes nothing, so that an expired
    token is neither refreshed nor sent to the login page; it changes the
    browser only while the token is unexpired and inside the five-minute
    window; and when the refresh then yields no token, the credentials are
    cleared and the login URL with the current path is assigned once. *)
Theorem interval_tick_window refreshFn now w :
  let w' := fst (interval_tick refreshFn now w) in
  let timer := snd (interval_tick refreshFn now w) in
  (timer = Cleared <-> isAuthenticated w now = false)
  /\ (isTokenExpired w now = true -> w' = w /\ timer = Cleared)
  /\ (w' <> w ->
      isTokenExpired w now = false /\ isTokenExpiringSoon w now = true)
  /\ (isAuthenticated w now = true ->
      isTokenExpiringSoon w now = true ->
      snd (refreshAccessToken refreshFn w) = None ->
      credentials_cleared w'
      /\ navigations <$> w'
         = (fun b => navigations b ++ [login_url (Some (pathname b))]) <$> w).
Proof.
  cbn zeta. unfold interval_tick.
  assert (isTokenExpired w now = true -> isAuthenticated w now = false) as Hex.
  { intros He. unfold isAuthenticated. rewrite He.
    by destruct (negb (truthy_str (getAccessToken w))). }
  destruct (isAuthenticated w now) eqn:Hauth; cbn [negb].
  - assert (isTokenExpired w now = false) as Hne
      by (destruct (isTokenExpired w now); [by apply Hex | reflexivity]).
    destruct (isTokenExpiringSoon w now) eqn:Hsoon.
    + destruct (refreshAccessToken refreshFn w) as [w1 newToken] eqn:Hr.
      destruct (negb (truthy_str newToken)) eqn:Htok; cbn [fst snd];
        (split; [split; discriminate |]);
        (split; [intros He; rewrite He in Hne; discriminate |]);
        (split; [auto |]).
      * intros _ _ ->.
        assert (w1 = w \/ w1 = clearAuthData w) as Hw1.
        { unfold refreshAccessToken in Hr.
          destruct (negb (truthy_str (getRefreshToken w)));
            [left; congruence |].
          destruct (refreshFn _); [discriminate | right; congruence]. }
        destruct w as [b |]; [| destruct Hw1 as [-> | ->]; by repeat split].
        destruct Hw1 as [-> | ->];
          (split; [apply HttpSpec.credentials_cleared_redirect |]); reflexivity.
      * intros _ _ ->. discriminate Htok.
    + cbn [fst snd]. repeat split; try discriminate; try congruence.
  - cbn [fst snd]. repeat split; try congruence; discriminate.
Qed.

(** X12: [HttpService.setAuthToken] with a bare token writes the access
    token and nothing else: the expiry stored before stays in force; on
    cleared storage the session it opens is never expiring, never expired,
    and authenticated for both services when the token is not empty.
    [HttpService.isAuthenticated] ignores the expiry that
    [isAuthenticated] checks. *)
Theorem setAuthToken_string_ignores_expiry token w now :
  getAuthToken (setAuthToken (TokenString token) w) = (fun _ => token) <$> w
  /\ getTokenExpiry (setAuthToken (TokenString token) w) = getTokenExpiry w
  /\ (let w' := setAuthToken (TokenString token) (removeAuthToken w) in
      isTokenExpiringSoon w' now = false
      /\ isTokenExpired w' now = false
      /\ isAuthenticated w' now = service_isAuthenticated w')
  /\ isAuthenticated w now
     = service_isAuthenticated w && negb (isTokenExpired w now).
Proof.
  assert (forall w0, getTokenExpiry (setAuthToken (TokenString token) w0)
                     = getTokenExpiry w0) as Hexp.
  { intros [b |]; [| reflexivity]. unfold getTokenExpiry, setAuthToken.
    keys. by rewrite lookup_insert_ne. }
  split; [| split; [apply Hexp | split]].
  - destruct w as [b |]; [| reflexivity]. unfold getAuthToken, setAuthToken.
    keys. by rewrite lookup_insert_eq.
  - cbn zeta.
    assert (getTokenExpiry
              (setAuthToken (TokenString token) (removeAuthToken w)) = None)
      as Hnone.
    { rewrite Hexp. apply getTokenExpiry_absent.
      apply (clearAuthData_cleared w). }
    destruct (not_expiring_without_expiry _ now Hnone) as [Hs He].
    split; [exact Hs | split; [exact He |]].
    unfold isAuthenticated, service_isAuthenticated. rewrite He.
    by destruct (truthy_str _).
  - unfold isAuthenticated, service_isAuthenticated.
    destruct (truthy_str (getAccessToken w)); [| reflexivity]. cbn.
    by destruct (isTokenExpired w now).
Qed.

End WithRuntime.

Import Demo.

Lemma clearAuthData_clears_witness :
  getItem "theme"
    (clearAuthData
       (Some (browser [("auth_token", "opaque-token"); ("theme", "dark")])))
  = getItem "theme"
      (Some (browser [("auth_token", "opaque-token"); ("theme", "dark")])).
Proof.
  apply (clearAuthData_clears
           (Some (browser [("auth_token", "opaque-token"); ("theme", "dark")]))
           0).
  rewrite !not_elem_of_cons. repeat split; try discriminate.
  apply not_elem_of_nil.
Defined.



Lemma storeAuthData_undecodable_inherits_expiry_witness :
  getTokenExpiry (storeAuthData opaque_credentials session_2000)
  = getTokenExpiry session_2000
  /\ isTokenExpired (storeAuthData opaque_credentials session_2000) 2000001
     = isTokenExpired session_2000 2000001
  /\ ("opaque-token" <> "" ->
      isAuthenticated (storeAuthData opaque_credentials session_2000) 2000001
      = negb (isTokenExpired session_2000 2000001)).
Proof.
  destruct session_2000 as [b |] eqn:Hs; [| discriminate Hs].
  exact (storeAuthData_undecodable_inherits_expiry opaque_credentials b
           2000001 eq_refl).
Defined.

Example opaque_token_over_expired_session :
  isAuthenticated (storeAuthData opaque_credentials session_2000) 2000001
  = false.
Proof. vm_compute. reflexivity. Qed.

Lemma expiry_predicates_monotone_witness :
  isTokenExpired session_2000 2000000 = true
  /\ isTokenExpiringSoon session_2000 2000000 = true.
Proof.
  assert (isTokenExpired session_2000 2000000 = true) as He
    by (vm_compute; reflexivity).
  split; [exact He |].
  exact (proj1 (expiry_predicates_monotone session_2000 2000000 2000000) He).
Defined.

Lemma interval_tick_window_witness :
  isTokenExpired session_2000 2000000 = true
  /\ fst (interval_tick (fun _ => Some refreshed) 2000000 session_2000)
     = session_2000
  /\ snd (interval_tick (fun _ => Some refreshed) 2000000 session_2000)
     = Cleared.
Proof.
  assert (isTokenExpired session_2000 2000000 = true) as He
    by (vm_compute; reflexivity).
  split; [exact He |].
  exact (proj1 (proj2 (interval_tick_window (fun _ => Some refreshed) 2000000
                         session_2000)) He).
Defined.

End AuthSpec2.

(** ** Interceptors: waiters, settled chains, refresh starts *)

Module HttpSpec2.
Import Js ErrorHandler Auth Http HttpInv HttpInv2.
Local Open Scope list_scope.

Section WithRuntime.
Context `{Runtime}.

(** *** The subscribers, once more request by request *)

Lemma fold_untargeted token r subs q :
  (forall s, s ∈ subs -> target s <> r) ->
  fold_left (apply_sub token r) subs q = q.
Proof.
  revert q. induction subs as [| s subs IH]; intros q Hs; [reflexivity |].
  cbn [fold_left].
  assert (apply_sub token r q s = q) as ->.
  { specialize (Hs s ltac:(apply elem_of_cons; auto)).
    destruct s as [r' | r']; cbn in *; by destruct (decide (r' = r)). }
  apply IH. intros s' Hs'. apply Hs, elem_of_cons. auto.
Qed.

Lemma fold_phase token r subs q :
  phase (fold_left (apply_sub token r) subs q)
  = match phase q with
    | ReqWaiting =>
        if bool_decide (SubRequest r ∈ subs) then InTransport else ReqWaiting
    | RespWaiting =>
        if bool_decide (SubRetry r ∈ subs) then Queued else RespWaiting
    | p => p
    end.
Proof.
  revert q. induction subs as [| s subs IH]; intros q.
  - cbn. destruct (phase q); reflexivity.
  - cbn [fold_left]. rewrite IH.
    destruct s as [r' | r']; cbn [apply_sub];
      (destruct (decide (r' = r)) as [-> | Hne];
       [unfold resolve_config, resolve_retry; destruct (phase q) eqn:Hp; cbn;
        rewrite ?Hp; try reflexivity
       | destruct (phase q) eqn:Hp; try reflexivity]);
      repeat case_bool_decide; try reflexivity;
      rewrite ?elem_of_cons in *; try tauto;
      exfalso; intuition congruence.
Qed.

Lemma apply_sub_authorization token r q s :
  target s = r \/ Authorization q = Some (bearer token) ->
  Authorization (apply_sub token r q s) = Some (bearer token).
Proof.
  intros Hs. destruct s as [r' | r']; cbn [apply_sub target] in *;
    (destruct (decide (r' = r)); [| by destruct Hs]);
    unfold resolve_config, resolve_retry; by destruct (phase q).
Qed.

Lemma fold_authorization_stable token r subs q :
  Authorization q = Some (bearer token) ->
  Authorization (fold_left (apply_sub token r) subs q) = Some (bearer token).
Proof.
  revert q. induction subs as [| s subs IH]; intros q Hq; [exact Hq |].
  cbn [fold_left]. apply IH, apply_sub_authorization. auto.
Qed.

Lemma fold_authorization token r subs q :
  (exists s, s ∈ subs /\ target s = r) ->
  Authorization (fold_left (apply_sub token r) subs q) = Some (bearer token).
Proof.
  revert q. induction subs as [| s subs IH]; intros q (s0 & Hin & Ht).
  - by apply elem_of_nil in Hin.
  - cbn [fold_left]. apply elem_of_cons in Hin as [-> | Hin].
    + apply fold_authorization_stable, apply_sub_authorization. auto.
    + apply IH. eauto.
Qed.

(** *** Subscribers and waiting chains mirror each other *)

Lemma subscriber_eq s s' :
  target s = target s' -> phase_of_subscriber s = phase_of_subscriber s' ->
  s = s'.
Proof. destruct s, s'; cbn; congruence. Qed.

Lemma waiting_subscriber s : waiting_phase (phase_of_subscriber s) = true.
Proof. by destruct s. Qed.

(** A step on one chain that waits neither before nor after. *)
Lemma waiters_quiet m subs r f :
  waiters_wf_on m subs ->
  (forall q, m !! r = Some q ->
             waiting_phase (phase q) = false
             /\ waiting_phase (phase (f q)) = false
             /\ (forall t, returned_token (phase (f q)) = Some t ->
                           truthy_str (Some t) = true)) ->
  waiters_wf_on (alter f r m) subs.
Proof.
  intros (Hnd & Hiff & Htok) Hf. split; [exact Hnd | split].
  - intros s. rewrite Hiff. destruct (decide (target s = r)) as [Heq | Hne].
    + rewrite Heq, lookup_alter_eq.
      destruct (m !! r) as [q |] eqn:Hq; cbn;
        [| split; intros (? & [=] & _)].
      destruct (Hf q eq_refl) as (H1 & H2 & _).
      pose proof (waiting_subscriber s) as Hw.
      split; intros (q' & [= <-] & Hp); rewrite Hp in *; congruence.
    + by rewrite lookup_alter_ne.
  - intros r0 q0 t. destruct (decide (r0 = r)) as [-> | Hne].
    + rewrite lookup_alter_eq. destruct (m !! r) as [q |] eqn:Hq;
        [| discriminate].
      intros [= <-]. by apply Hf.
    + rewrite lookup_alter_ne by congruence. apply Htok.
Qed.

(** A chain suspends itself behind the subscriber it pushes. *)
Lemma waiters_subscribe m subs s f q :
  waiters_wf_on m subs ->
  m !! target s = Some q ->
  waiting_phase (phase q) = false ->
  phase (f q) = phase_of_subscriber s ->
  waiters_wf_on (alter f (target s) m) (subs ++ [s]).
Proof.
  intros (Hnd & Hiff & Htok) Hq Hnw Hp.
  assert (forall s', target s' = target s -> s' ∉ subs) as Hfresh.
  { intros s' Ht Hin. apply Hiff in Hin as (q' & Hq' & Hp').
    rewrite Ht, Hq in Hq'. injection Hq' as <-.
    pose proof (waiting_subscriber s'). congruence. }
  split; [| split].
  - apply NoDup_app. repeat split; [exact Hnd | | apply NoDup_singleton].
    intros s' Hin Hs'. apply list_elem_of_singleton in Hs' as ->.
    by apply (Hfresh s).
  - intros s'. rewrite elem_of_app, list_elem_of_singleton.
    destruct (decide (target s' = target s)) as [Ht | Hne].
    + rewrite Ht, lookup_alter_eq, Hq. cbn. split.
      * intros [Hin | ->]; [by apply Hfresh in Hin | eauto].
      * intros (q' & [= <-] & Hp'). right.
        apply subscriber_eq; congruence.
    + rewrite lookup_alter_ne by congruence. rewrite <- Hiff. split.
      * intros [Hin | ->]; [exact Hin | congruence].
      * auto.
  - intros r0 q0 t. destruct (decide (r0 = target s)) as [-> | Hne].
    + rewrite lookup_alter_eq, Hq. intros [= <-]. rewrite Hp.
      by destruct s.
    + rewrite lookup_alter_ne by congruence. apply Htok.
Qed.

(** The subscribers are called and the list is emptied. *)
Lemma waiters_notified token m subs r f g q :
  waiters_wf_on m subs ->
  m !! r = Some q ->
  awaiting (phase q) = true ->
  (forall q0, phase (f q0) = phase q0) ->
  (forall q0, waiting_phase (phase (g q0)) = false
              /\ returned_token (phase (g q0)) = None) ->
  waiters_wf_on
    (alter g r (fold_left (call_subscriber token) subs (alter f r m))) [].
Proof.
  intros (Hnd & Hiff & Htok) Hq Ha Hf Hg.
  assert (forall r0 q0,
            alter g r (fold_left (call_subscriber token) subs (alter f r m))
              !! r0 = Some q0 ->
            waiting_phase (phase q0) = false
            /\ (forall t, returned_token (phase q0) = Some t ->
                          truthy_str (Some t) = true)) as Hall.
  { intros r0 q0. destruct (decide (r0 = r)) as [-> | Hne].
    - rewrite lookup_alter_eq.
      destruct (fold_left _ _ _ !! r) as [q1 |]; [| discriminate].
      intros [= <-]. destruct (Hg q1) as [-> ->]. split; [reflexivity |].
      discriminate.
    - rewrite lookup_alter_ne, HttpSpec.fold_call_lookup, lookup_alter_ne by congruence.
      destruct (m !! r0) as [q1 |] eqn:Hq1; [| discriminate].
      intros [= <-]. rewrite fold_phase.
      destruct (phase q1) eqn:Hp; cbn;
        try (split; [reflexivity | discriminate]).
      + split; [reflexivity |]. intros t Ht. eapply (Htok r0 q1 t Hq1).
        by rewrite Hp.
      + rewrite bool_decide_eq_true_2; [split; [reflexivity | discriminate] |].
        apply (Hiff (SubRequest r0)). eauto.
      + split; [reflexivity |]. intros t Ht. eapply (Htok r0 q1 t Hq1).
        by rewrite Hp.
      + rewrite bool_decide_eq_true_2; [split; [reflexivity | discriminate] |].
        apply (Hiff (SubRetry r0)). eauto. }
  split; [apply NoDup_nil_2 | split].
  - intros s. rewrite elem_of_nil. split; [tauto |].
    intros (q0 & Hq0 & Hp). apply Hall in Hq0 as [Hw _].
    rewrite Hp, waiting_subscriber in Hw. discriminate.
  - intros r0 q0 t Hq0. apply Hall in Hq0 as [_ Ht]. apply Ht.
Qed.

Ltac quiet Hinv q Hq Hp :=
  apply waiters_quiet; [exact Hinv |];
  let q0 := fresh "q0" in
  let Hq0 := fresh "Hq0" in
  intros q0 Hq0; assert (q0 = q) as -> by congruence;
  rewrite Hp; cbn; repeat split; try reflexivity; try discriminate.

Lemma step_waiters_wf st ev : waiters_wf st -> waiters_wf (step st ev).
Proof.
  intros Hinv. unfold waiters_wf in *.
  destruct ev as [r | r now | r o | r | r resp | r error]; cbn [step].
  - (* Call *)
    destruct (requests st !! r) eqn:Hr; [exact Hinv |]. cbn.
    destruct Hinv as (Hnd & Hiff & Htok). split; [exact Hnd | split].
    + intros s. rewrite Hiff. destruct (decide (target s = r)) as [-> | Hne].
      * rewrite lookup_insert_eq, Hr. split.
        -- intros (? & [=] & _).
        -- intros (q' & [= <-] & Hp). by destruct s.
      * by rewrite lookup_insert_ne.
    + intros r0 q0 t. destruct (decide (r0 = r)) as [-> | Hne].
      * rewrite lookup_insert_eq. intros [= <-]. discriminate.
      * rewrite lookup_insert_ne by congruence. apply Htok.
  - (* RunRequestInterceptor *)
    destruct (requests st !! r) as [q |] eqn:Hq; [| exact Hinv].
    cbn [fmap option_fmap option_map]. destruct (phase q) eqn:Hp;
      try exact Hinv.
    unfold request_interceptor.
    destruct (truthy_str (getAccessToken (win st)));
      [| cbn; quiet Hinv q Hq Hp].
    destruct (isTokenExpiringSoon (win st) now && negb (isRefreshing st)).
    + unfold refreshToken_call.
      destruct (truthy_str (getRefreshToken (win (set_isRefreshing true st))));
        cbn; quiet Hinv q Hq Hp.
    + destruct (isRefreshing st); cbn; [| quiet Hinv q Hq Hp].
      apply (waiters_subscribe _ _ (SubRequest r) _ q);
        [exact Hinv | exact Hq | by rewrite Hp | reflexivity].
  - (* RefreshResponds *)
    destruct (requests st !! r) as [q |] eqn:Hq; [| exact Hinv].
    cbn [fmap option_fmap option_map].
    destruct (phase q) as [| [|] | | | ? [|] | | |] eqn:Hp; try exact Hinv;
      unfold refreshToken_settle;
      destruct o as [[body |] |];
      try destruct (truthy_str (Some (accessToken body))) eqn:Hbody;
      cbn; quiet Hinv q Hq Hp; intros t [= <-]; exact Hbody.
  - (* Continue *)
    destruct (requests st !! r) as [q |] eqn:Hq; [| exact Hinv].
    cbn [fmap option_fmap option_map].
    destruct (phase q) as [| [| newToken] | | | ? [| newToken] | | |] eqn:Hp;
      try exact Hinv.
    + unfold request_interceptor_resume.
      destruct (truthy_str newToken); cbn; [| quiet Hinv q Hq Hp].
      apply (waiters_notified _ _ _ _ _ _ q);
        [exact Hinv | exact Hq | by rewrite Hp | reflexivity | by split].
    + unfold response_error_resume.
      destruct (truthy_str newToken); cbn; [| quiet Hinv q Hq Hp].
      apply (waiters_notified _ _ _ _ _ _ q);
        [exact Hinv | exact Hq | by rewrite Hp | reflexivity | by split].
  - (* TransportResponds *)
    destruct (requests st !! r) as [q |] eqn:Hq; [| exact Hinv].
    cbn [fmap option_fmap option_map]. destruct (phase q) eqn:Hp;
      try exact Hinv.
    cbn. quiet Hinv q Hq Hp.
  - (* TransportFails *)
    destruct (requests st !! r) as [q |] eqn:Hq; [| exact Hinv].
    destruct (phase q) eqn:Hp; try exact Hinv.
    unfold response_error.
    destruct (num_is (status <$> response error) 401 && negb (_retry q));
      [| cbn; quiet Hinv q Hq Hp].
    cbn. destruct (isRefreshing st); cbn.
    + rewrite alter_alter_eq.
      apply (waiters_subscribe _ _ (SubRetry r) _ q);
        [exact Hinv | exact Hq | by rewrite Hp | reflexivity].
    + unfold refreshToken_call.
      destruct (truthy_str _); cbn; rewrite alter_alter_eq;
        quiet Hinv q Hq Hp.
Qed.

Lemma run_waiters_wf evs st : waiters_wf st -> waiters_wf (run evs st).
Proof.
  revert st. induction evs as [| ev evs IH]; intros st Hinv; [exact Hinv |].
  apply IH, step_waiters_wf, Hinv.
Qed.

Lemma initial_waiters_wf w : waiters_wf (initial w).
Proof.
  split; [apply NoDup_nil_2 | split].
  - intros s. cbn. rewrite elem_of_nil, lookup_empty.
    split; [tauto | intros (? & [=] & _)].
  - intros r q t. cbn. by rewrite lookup_empty.
Qed.

(** X13: along every run no closure is queued twice, and a closure of
    either kind is on the subscriber list exactly while the chain that
    pushed it is suspended on it. *)
Theorem waiters_mirror_subscribers w evs :
  let st := run evs (initial w) in
  NoDup (refreshSubscribers st)
  /\ (forall r, SubRequest r ∈ refreshSubscribers st <->
                exists q, requests st !! r = Some q /\ phase q = ReqWaiting)
  /\ (forall r, SubRetry r ∈ refreshSubscribers st <->
                exists q, requests st !! r = Some q /\ phase q = RespWaiting).
Proof.
  destruct (run_waiters_wf evs _ (initial_waiters_wf w)) as (Hnd & Hiff & _).
  split; [exact Hnd |].
  split; intros r; [apply (Hiff (SubRequest r)) | apply (Hiff (SubRetry r))].
Qed.

(** X14: when the chain that leads a refresh resumes with a token, the
    subscriber list is emptied and no chain is left waiting, including
    chains left behind by earlier failed refreshes: every chain that waited
    carries the new token, goes to the transport if it waited in the request
    interceptor and is issued again if it waited after a 401. *)
Theorem successful_refresh_releases_waiters w evs r q token :
  let st := run evs (initial w) in
  requests st !! r = Some q ->
  returned_token (phase q) = Some token ->
  let st' := step st (Continue r) in
  refreshSubscribers st' = []
  /\ isRefreshing st' = false
  /\ (forall r' q', requests st' !! r' = Some q' ->
                    waiting_phase (phase q') = false)
  /\ (forall r' q0,
        requests st !! r' = Some q0 ->
        waiting_phase (phase q0) = true ->
        exists q', requests st' !! r' = Some q'
                   /\ Authorization q' = Some (bearer token)
                   /\ phase q' = match phase q0 with
                                 | ReqWaiting => InTransport
                                 | _ => Queued
                                 end).
Proof.
  intros st Hq Ht st'.
  pose proof (run_waiters_wf evs _ (initial_waiters_wf w)) as Hinv.
  fold st in Hinv.
  pose proof (step_waiters_wf st (Continue r) Hinv) as Hinv'. fold st' in Hinv'.
  destruct Hinv as (_ & Hiff & Htok).
  pose proof (Htok r q token Hq Ht) as Htruthy.
  assert (refreshSubscribers st' = []
          /\ isRefreshing st' = false
          /\ forall r' q0,
               r' <> r -> requests st !! r' = Some q0 ->
               requests st' !! r'
               = Some (fold_left (apply_sub token r') (refreshSubscribers st) q0))
    as (Hsubs & Hidle & Hother).
  { subst st'. cbn [step]. rewrite Hq. cbn [fmap option_fmap option_map].
    destruct (phase q) as [| [| t] | | | ? [| t] | | |]; try discriminate Ht;
      cbn in Ht; subst t;
      unfold request_interceptor_resume, response_error_resume;
      rewrite Htruthy; cbn; (split; [reflexivity |]); (split; [reflexivity |]);
      intros r' q0 Hne Hq0;
      by rewrite HttpSpec.alter_other, HttpSpec.fold_call_lookup,
           HttpSpec.alter_other, Hq0. }
  split; [exact Hsubs | split; [exact Hidle | split]].
  - intros r' q' Hq'. destruct Hinv' as (_ & Hiff' & _).
    destruct (waiting_phase (phase q')) eqn:Hw; [| reflexivity].
    exfalso.
    assert (exists s, target s = r' /\ phase_of_subscriber s = phase q')
      as (s & <- & Hs).
    { destruct (phase q'); try discriminate;
        [exists (SubRequest r') | exists (SubRetry r')]; auto. }
    assert (s ∈ refreshSubscribers st') as Hin by (apply Hiff'; eauto).
    rewrite Hsubs in Hin. by apply elem_of_nil in Hin.
  - intros r' q0 Hq0 Hw.
    assert (r' <> r) as Hne.
    { intros ->. assert (q0 = q) as -> by congruence.
      destruct (phase q); discriminate. }
    eexists. split; [by apply Hother |].
    assert (exists s, target s = r' /\ phase_of_subscriber s = phase q0)
      as (s & Hts & Hs).
    { destruct (phase q0); try discriminate;
        [exists (SubRequest r') | exists (SubRetry r')]; auto. }
    assert (s ∈ refreshSubscribers st) as Hin
      by (apply Hiff; rewrite Hts; eauto).
    split; [apply fold_authorization; eauto |].
    rewrite fold_phase. destruct s; cbn in Hts, Hs; subst; rewrite <- Hs;
      by rewrite bool_decide_eq_true_2.
Qed.

Lemma step_settled st ev r q :
  waiters_wf st ->
  requests st !! r = Some q ->
  settled (phase q) = true ->
  requests (step st ev) !! r = Some q.
Proof.
  intros (_ & Hiff & _) Hq Hs.
  assert (forall token f g r0,
            r0 <> r ->
            alter g r0
              (fold_left (call_subscriber token) (refreshSubscribers st)
                 (alter f r0 (requests st))) !! r = Some q) as Hnotify.
  { intros token f g r0 Hne.
    rewrite HttpSpec.alter_other, HttpSpec.fold_call_lookup,
      HttpSpec.alter_other, Hq by congruence.
    cbn. f_equal. apply fold_untargeted. intros s Hin Hts.
    apply Hiff in Hin as (q' & Hq' & Hp). rewrite Hts, Hq in Hq'.
    injection Hq' as <-. pose proof (waiting_subscriber s) as Hw.
    rewrite <- Hp in Hw. destruct (phase q); discriminate. }
  destruct ev as [r0 | r0 now | r0 o | r0 | r0 resp | r0 error];
    cbn [step];
    (destruct (decide (r0 = r)) as [-> | Hne];
     [rewrite Hq; cbn [fmap option_fmap option_map];
      destruct (phase q); try discriminate Hs; exact Hq |]).
  - destruct (requests st !! r0); [exact Hq |]. cbn.
    by rewrite lookup_insert_ne.
  - destruct (requests st !! r0) as [q0 |]; [| exact Hq].
    cbn [fmap option_fmap option_map]. destruct (phase q0); try exact Hq.
    unfold request_interceptor, refreshToken_call.
    repeat (match goal with
            | |- context [if ?c then _ else _] => destruct c
            end); cbn; by rewrite ?HttpSpec.alter_other.
  - destruct (requests st !! r0) as [q0 |]; [| exact Hq].
    cbn [fmap option_fmap option_map].
    destruct (phase q0) as [| [|] | | | ? [|] | | |]; try exact Hq;
      unfold refreshToken_settle; destruct o as [[body |] |];
      try destruct (truthy_str (Some (accessToken body)));
      cbn; by rewrite HttpSpec.alter_other.
  - destruct (requests st !! r0) as [q0 |]; [| exact Hq].
    cbn [fmap option_fmap option_map].
    destruct (phase q0) as [| [| t] | | | ? [| t] | | |]; try exact Hq;
      unfold request_interceptor_resume, response_error_resume;
      destruct (truthy_str t); cbn;
      first [by apply Hnotify | by rewrite HttpSpec.alter_other].
  - destruct (requests st !! r0) as [q0 |]; [| exact Hq].
    cbn [fmap option_fmap option_map]. destruct (phase q0); try exact Hq.
    cbn. by rewrite HttpSpec.alter_other.
  - destruct (requests st !! r0) as [q0 |]; [| exact Hq].
    destruct (phase q0); try exact Hq.
    unfold response_error, refreshToken_call.
    repeat (match goal with
            | |- context [if ?c then _ else _] => destruct c
            end); cbn; by rewrite ?HttpSpec.alter_other.
Qed.

(** X15: a chain that was fulfilled or rejected is final: whatever events
    follow, its config, its outcome and its counters stay as they are. *)
Theorem settled_chain_is_final w evs evs' r q :
  let st := run evs (initial w) in
  requests st !! r = Some q ->
  settled (phase q) = true ->
  requests (run evs' st) !! r = Some q.
Proof.
  intros st Hq Hs.
  pose proof (run_waiters_wf evs _ (initial_waiters_wf w)) as Hinv.
  fold st in Hinv. clearbody st. revert st Hinv Hq.
  induction evs' as [| ev evs' IH]; intros st Hinv Hq; [exact Hq |].
  apply IH; [by apply step_waiters_wf | by apply step_settled].
Qed.

Ltac unchanged := let Hneq := fresh in intros Hneq; exfalso; apply Hneq; reflexivity.

(** X16: the browser state (storage and navigation) changes only when a
    refresh exchange answers with a usable token, which is stored, or when
    the chain leading a refresh resumes without a token, which redirects to
    the login page; no other event and no failure status touches it. *)
Theorem browser_changes_only_by_refresh st ev :
  win (step st ev) <> win st ->
  (exists r body,
     ev = RefreshResponds r (PostOk (Some body))
     /\ truthy_str (Some (accessToken body)) = true
     /\ win (step st ev) = storeAuthData body (win st))
  \/ (exists r q,
        ev = Continue r
        /\ requests st !! r = Some q
        /\ awaiting (phase q) = true
        /\ truthy_str (returned_token (phase q)) = false
        /\ win (step st ev)
           = redirectToLogin (current_path (win st)) (win st)).
Proof.
  destruct ev as [r | r now | r o | r | r resp | r error]; cbn [step].
  - destruct (requests st !! r); cbn; unchanged.
  - destruct (requests st !! r) as [q |]; [| unchanged].
    cbn [fmap option_fmap option_map]. destruct (phase q); try unchanged.
    unfold request_interceptor, refreshToken_call.
    repeat (match goal with
            | |- context [if ?c then _ else _] => destruct c
            end); cbn; unchanged.
  - destruct (requests st !! r) as [q |]; [| unchanged].
    cbn [fmap option_fmap option_map].
    destruct (phase q) as [| [|] | | | ? [|] | | |]; try unchanged;
      unfold refreshToken_settle; destruct o as [[body |] |];
      try destruct (truthy_str (Some (accessToken body))) eqn:Hb;
      cbn; try unchanged; intros _; left; exists r, body; auto.
  - destruct (requests st !! r) as [q |] eqn:Hq; [| unchanged].
    cbn [fmap option_fmap option_map].
    destruct (phase q) as [| [| t] | | | ? [| t] | | |] eqn:Hp;
      try unchanged;
      unfold request_interceptor_resume, response_error_resume;
      destruct (truthy_str t) eqn:Ht; cbn; try unchanged;
      intros _; right; exists r, q; rewrite Hp; cbn;
      repeat split; first [exact Hq | exact Ht | reflexivity].
  - destruct (requests st !! r) as [q |]; [| unchanged].
    cbn [fmap option_fmap option_map]. destruct (phase q); unchanged.
  - destruct (requests st !! r) as [q |]; [| unchanged].
    destruct (phase q); try unchanged.
    unfold response_error, refreshToken_call.
    repeat (match goal with
            | |- context [if ?c then _ else _] => destruct c
            end); cbn; unchanged.
Qed.

(** X17: a refresh exchange is started only while none is in progress and
    a refresh token is stored, by a request interceptor that finds a token
    expiring soon or by a first 401 on a request; the step starts exactly
    one and sets the flag. *)
Theorem exchange_start st ev :
  exchanges (step st ev) <> exchanges st ->
  exchanges (step st ev) = S (exchanges st)
  /\ isRefreshing st = false
  /\ isRefreshing (step st ev) = true
  /\ truthy_str (getRefreshToken (win st)) = true
  /\ starts_refresh st ev.
Proof.
  destruct ev as [r | r now | r o | r | r resp | r error]; cbn [step].
  - destruct (requests st !! r); cbn; unchanged.
  - destruct (requests st !! r) as [q |] eqn:Hq; [| unchanged].
    cbn [fmap option_fmap option_map].
    destruct (phase q) eqn:Hp; try unchanged.
    unfold request_interceptor, refreshToken_call.
    change (win (set_isRefreshing true st)) with (win st).
    destruct (truthy_str (getAccessToken (win st))) eqn:Htok;
      [| unchanged].
    destruct (isTokenExpiringSoon (win st) now) eqn:Hsoon;
      destruct (isRefreshing st) eqn:Hbusy; cbn [andb negb];
      try unchanged.
    destruct (truthy_str (getRefreshToken (win st))) eqn:Href;
      [| unchanged].
    intros _. cbn [starts_refresh]. rewrite Htok, Hsoon.
    repeat split; eauto.
  - destruct (requests st !! r) as [q |]; [| unchanged].
    cbn [fmap option_fmap option_map].
    destruct (phase q) as [| [|] | | | ? [|] | | |]; try unchanged;
      unfold refreshToken_settle; destruct o as [[body |] |];
      try destruct (truthy_str (Some (accessToken body)));
      cbn; unchanged.
  - destruct (requests st !! r) as [q |]; [| unchanged].
    cbn [fmap option_fmap option_map].
    destruct (phase q) as [| [| t] | | | ? [| t] | | |]; try unchanged;
      unfold request_interceptor_resume, response_error_resume;
      destruct (truthy_str t); cbn; unchanged.
  - destruct (requests st !! r) as [q |]; [| unchanged].
    cbn [fmap option_fmap option_map]. destruct (phase q); unchanged.
  - destruct (requests st !! r) as [q |] eqn:Hq; [| unchanged].
    destruct (phase q) eqn:Hp; try unchanged.
    unfold response_error, refreshToken_call.
    change (win (set_isRefreshing true (update_request r mark_retry st)))
      with (win st).
    change (isRefreshing (update_request r mark_retry st))
      with (isRefreshing st).
    destruct (num_is (status <$> response error) 401) eqn:H401;
      destruct (_retry q) eqn:Hretry; cbn [andb negb]; try unchanged.
    destruct (isRefreshing st) eqn:Hbusy; try unchanged.
    destruct (truthy_str (getRefreshToken (win st))) eqn:Href;
      [| unchanged].
    intros _. cbn [starts_refresh]. rewrite H401.
    repeat split; eauto.
Qed.

Lemma truthy_refresh_window w :
  truthy_str (getRefreshToken w) = true -> exists b, w = Some b.
Proof. destruct w as [b |]; [eauto | discriminate]. Qed.

(** X18: a first 401 while no refresh is in progress, with a refresh token
    stored and an exchange that answers with a usable token: the new
    credential set is stored, the flag is cleared, one exchange was made,
    and the request is queued again exactly once, marked retried and
    carrying the new token; when that token is not itself expiring soon,
    the request interceptor sends it with the new token. *)
Theorem reactive_refresh_retries_once w evs r q error body now :
  let st := run evs (initial w) in
  isRefreshing st = false ->
  requests st !! r = Some q ->
  phase q = InTransport ->
  _retry q = false ->
  num_is (status <$> response error) 401 = true ->
  truthy_str (getRefreshToken (win st)) = true ->
  truthy_str (Some (accessToken body)) = true ->
  let st1 :=
    run [TransportFails r error; RefreshResponds r (PostOk (Some body));
         Continue r] st in
  win st1 = storeAuthData body (win st)
  /\ isRefreshing st1 = false
  /\ exchanges st1 = S (exchanges st)
  /\ requests st1 !! r
     = Some {| Authorization := Some (bearer (accessToken body));
               _retry := true; phase := Queued;
               retry_sets := S (retry_sets q);
               reissues := S (reissues q) |}
  /\ (isTokenExpiringSoon (win st1) now = false ->
      sent_with (accessToken body) (step st1 (RunRequestInterceptor r now)) r).
Proof.
  intros st Hidle Hq Hp Hretry H401 Href Hbody st1.
  pose proof (run_waiters_wf evs _ (initial_waiters_wf w)) as Hinv.
  fold st in Hinv. destruct Hinv as (_ & Hiff & _).
  assert (forall q0, fold_left (apply_sub (accessToken body) r)
                       (refreshSubscribers st) q0 = q0) as Hfold.
  { intros q0. apply fold_untargeted. intros s Hin Hts.
    apply Hiff in Hin as (q' & Hq' & Hp'). rewrite Hts, Hq in Hq'.
    injection Hq' as <-. pose proof (waiting_subscriber s) as Hw.
    rewrite <- Hp', Hp in Hw. discriminate. }
  assert (win st1 = storeAuthData body (win st)
          /\ isRefreshing st1 = false
          /\ exchanges st1 = S (exchanges st)
          /\ requests st1 !! r
             = Some {| Authorization := Some (bearer (accessToken body));
                       _retry := true; phase := Queued;
                       retry_sets := S (retry_sets q);
                       reissues := S (reissues q) |}) as (Hw & Hi & He & Hr).
  { subst st1.
    change (run [TransportFails r error;
                 RefreshResponds r (PostOk (Some body)); Continue r] st)
      with (step (step (step st (TransportFails r error))
                    (RefreshResponds r (PostOk (Some body))))
              (Continue r)).
    assert (step st (TransportFails r error)
            = update_request r (set_phase (RespAwaitRefresh error PostPending))
                (post_started
                   (set_isRefreshing true (update_request r mark_retry st))))
      as ->.
    { cbn [step]. rewrite Hq, Hp. unfold response_error.
      rewrite H401, Hretry. cbn [andb negb].
      change (isRefreshing (update_request r mark_retry st))
        with (isRefreshing st).
      rewrite Hidle. unfold refreshToken_call.
      change (win (set_isRefreshing true (update_request r mark_retry st)))
        with (win st).
      by rewrite Href. }
    set (sa := update_request r _ _).
    assert (requests sa !! r
            = Some (set_phase (RespAwaitRefresh error PostPending)
                      (mark_retry q))) as Hqa
      by (subst sa; cbn; by rewrite !lookup_alter_eq, Hq).
    assert (step sa (RefreshResponds r (PostOk (Some body)))
            = update_request r
                (set_phase (RespAwaitRefresh error
                              (Returned (Some (accessToken body)))))
                (set_win (storeAuthData body (win sa)) (post_settled sa)))
      as ->.
    { cbn [step]. rewrite Hqa. cbn [fmap option_fmap option_map phase set_phase].
      unfold refreshToken_settle. by rewrite Hbody. }
    set (sb := update_request r _ _).
    assert (requests sb !! r
            = Some (set_phase (RespAwaitRefresh error
                                 (Returned (Some (accessToken body))))
                      (mark_retry q))) as Hqb
      by (subst sb; unfold update_request;
          cbn [requests set_requests set_win post_settled];
          by rewrite lookup_alter_eq, Hqa).
    cbn [step]. rewrite Hqb. cbn [fmap option_fmap option_map phase set_phase].
    unfold response_error_resume. rewrite Hbody.
    cbn [default from_option id].
    repeat split; try reflexivity.
    cbn. rewrite lookup_alter_eq, HttpSpec.fold_call_lookup, !lookup_alter_eq,
      Hq. cbn. rewrite Hfold. reflexivity. }
  clearbody st1.
  split; [exact Hw | split; [exact Hi | split; [exact He | split;
    [exact Hr |]]]].
  intros Hsoon. cbn [step]. rewrite Hr. cbn [fmap option_fmap option_map phase].
  unfold request_interceptor, sent_with.
  destruct (truthy_refresh_window _ Href) as [b Hb].
  assert (getAccessToken (win st1) = Some (accessToken body)) as Htok
    by (rewrite Hw, Hb; apply AuthSpec.storeAuthData_access).
  rewrite Htok, Hbody, Hsoon, Hi. cbn.
  rewrite lookup_alter_eq, Hr. cbn. eauto.
Qed.

(** *** Server side *)

Lemma server_side_alter st st' r f :
  server_side st ->
  win st' = None -> exchanges st' = 0%nat ->
  requests st' = alter f r (requests st) ->
  (forall q, Authorization (f q) = Authorization q
             /\ posting (phase (f q)) = false
             /\ returned_token (phase (f q)) = None) ->
  server_side st'.
Proof.
  intros (_ & _ & Hreq) Hw He Hm Hf. split; [exact Hw | split; [exact He |]].
  intros r0 q0. rewrite Hm. destruct (decide (r0 = r)) as [-> | Hne].
  - rewrite lookup_alter_eq. destruct (requests st !! r) as [q |] eqn:Hq;
      [| discriminate].
    intros [= <-]. destruct (Hf q) as (-> & -> & ->).
    split; [| auto]. eapply Hreq, Hq.
  - rewrite lookup_alter_ne by congruence. apply Hreq.
Qed.

Lemma step_server_side st ev : server_side st -> server_side (step st ev).
Proof.
  intros Hinv. pose proof Hinv as (Hw & He & Hreq).
  assert (getAccessToken (win st) = None) as Htok by (by rewrite Hw).
  assert (getRefreshToken (win st) = None) as Href by (by rewrite Hw).
  destruct ev as [r | r now | r o | r | r resp | r error]; cbn [step].
  - destruct (requests st !! r) eqn:Hr; [exact Hinv |].
    split; [exact Hw | split; [exact He |]]. intros r0 q0. cbn.
    destruct (decide (r0 = r)) as [-> | Hne].
    + rewrite lookup_insert_eq. by intros [= <-].
    + rewrite lookup_insert_ne by congruence. apply Hreq.
  - destruct (requests st !! r) as [q |] eqn:Hq; [| exact Hinv].
    cbn [fmap option_fmap option_map]. destruct (phase q); try exact Hinv.
    unfold request_interceptor. rewrite Htok. cbn [truthy_str].
    by eapply server_side_alter.
  - destruct (requests st !! r) as [q |] eqn:Hq; [| exact Hinv].
    cbn [fmap option_fmap option_map].
    destruct (Hreq r q Hq) as (_ & Hpost & _).
    destruct (phase q) as [| [|] | | | ? [|] | | |]; try exact Hinv;
      discriminate Hpost.
  - destruct (requests st !! r) as [q |] eqn:Hq; [| exact Hinv].
    cbn [fmap option_fmap option_map].
    destruct (Hreq r q Hq) as (_ & _ & Hret).
    destruct (phase q) as [| [| t] | | | ? [| t] | | |]; try exact Hinv;
      cbn in Hret; subst t;
      unfold request_interceptor_resume, response_error_resume;
      cbn [truthy_str];
      (eapply server_side_alter; [exact Hinv | | | reflexivity | by intros]);
      cbn; by rewrite ?Hw.
  - destruct (requests st !! r) as [q |] eqn:Hq; [| exact Hinv].
    cbn [fmap option_fmap option_map]. destruct (phase q); try exact Hinv.
    by eapply server_side_alter.
  - destruct (requests st !! r) as [q |] eqn:Hq; [| exact Hinv].
    destruct (phase q); try exact Hinv.
    unfold response_error, refreshToken_call.
    destruct (num_is (status <$> response error) 401 && negb (_retry q));
      [| by eapply server_side_alter].
    cbn [isRefreshing update_request set_requests].
    destruct (isRefreshing st).
    + eapply (server_side_alter _ _ r (set_phase RespWaiting ∘ mark_retry));
        [exact Hinv | exact Hw | exact He | | by intros].
      cbn. by rewrite alter_alter_eq.
    + change (win (set_isRefreshing true (update_request r mark_retry st)))
        with (win st).
      rewrite Href. cbn [truthy_str].
      eapply (server_side_alter _ _ r
                (set_phase (RespAwaitRefresh error (Returned None))
                 ∘ mark_retry));
        [exact Hinv | exact Hw | exact He | | by intros].
      cbn. by rewrite alter_alter_eq.
Qed.

(** X19: on the server side, where there is no window, no run ever reads a
    token: no refresh exchange is made, no request carries an
    [Authorization] header, and the missing window stays missing. *)
Theorem server_side_sends_unauthenticated evs :
  let st := run evs (initial None) in
  win st = None
  /\ exchanges st = 0%nat
  /\ forall r q, requests st !! r = Some q -> Authorization q = None.
Proof.
  assert (forall st, server_side st -> server_side (run evs st)) as Hrun.
  { induction evs as [| ev evs IH]; intros st Hst; [exact Hst |].
    apply IH, step_server_side, Hst. }
  destruct (Hrun (initial None)) as (Hw & He & Hreq).
  { split; [reflexivity | split; [reflexivity |]].
    intros r q. cbn. by rewrite lookup_empty. }
  split; [exact Hw | split; [exact He |]].
  intros r q Hq. by apply Hreq in Hq as [Ha _].
Qed.

(** *** The browser along a run *)



(** *** The send that follows a refresh *)



End WithRuntime.

(** *** Evaluation on the demo runtime *)

Import Demo Scenarios.

Lemma successful_refresh_releases_waiters_witness :
  let st := run refresh_answered (initial near_expiry) in
  let st' := step st (Continue 1) in
  refreshSubscribers st' = []
  /\ isRefreshing st' = false
  /\ (forall r' q', requests st' !! r' = Some q' ->
                    waiting_phase (phase q') = false)
  /\ (forall r' q0,
        requests st !! r' = Some q0 ->
        waiting_phase (phase q0) = true ->
        exists q', requests st' !! r' = Some q'
                   /\ Authorization q' = Some (bearer "exp=9000")
                   /\ phase q' = match phase q0 with
                                 | ReqWaiting => InTransport
                                 | _ => Queued
                                 end).
Proof.
  exact (successful_refresh_releases_waiters near_expiry refresh_answered 1
           answered_leader "exp=9000" ltac:(vm_compute; reflexivity) eq_refl).
Defined.

Lemma settled_chain_is_final_witness :
  requests
    (run [RunRequestInterceptor 1 2000; TransportFails 1 unauthorized;
          Continue 1]
       (run retry_then_401 (initial far_from_expiry))) !! 1%nat
  = Some retried_request.
Proof.
  exact (settled_chain_is_final far_from_expiry retry_then_401
           [RunRequestInterceptor 1 2000; TransportFails 1 unauthorized;
            Continue 1]
           1 retried_request ltac:(vm_compute; reflexivity) eq_refl).
Defined.

Lemma browser_changes_only_by_refresh_witness :
  let st := run [Call 1; RunRequestInterceptor 1 1800000]
              (initial near_expiry) in
  let ev := RefreshResponds 1 (PostOk (Some refreshed)) in
  (exists r body,
     ev = RefreshResponds r (PostOk (Some body))
     /\ truthy_str (Some (accessToken body)) = true
     /\ win (step st ev) = storeAuthData body (win st))
  \/ (exists r q,
        ev = Continue r
        /\ requests st !! r = Some q
        /\ awaiting (phase q) = true
        /\ truthy_str (returned_token (phase q)) = false
        /\ win (step st ev)
           = redirectToLogin (current_path (win st)) (win st)).
Proof.
  cbn zeta. apply browser_changes_only_by_refresh.
  intros Heq. apply (f_equal (getItem "auth_token")) in Heq.
  vm_compute in Heq. discriminate Heq.
Defined.

Lemma exchange_start_witness :
  let st := run [Call 1] (initial near_expiry) in
  let ev := RunRequestInterceptor 1 1800000 in
  exchanges (step st ev) = S (exchanges st)
  /\ isRefreshing st = false
  /\ isRefreshing (step st ev) = true
  /\ truthy_str (getRefreshToken (win st)) = true
  /\ starts_refresh st ev.
Proof.
  cbn zeta. apply exchange_start. vm_compute. discriminate.
Defined.

Lemma reactive_refresh_retries_once_witness :
  let st := run first_send (initial far_from_expiry) in
  let st1 :=
    run [TransportFails 1 unauthorized;
         RefreshResponds 1 (PostOk (Some refreshed)); Continue 1] st in
  win st1 = storeAuthData refreshed (win st)
  /\ isRefreshing st1 = false
  /\ exchanges st1 = S (exchanges st)
  /\ requests st1 !! 1%nat
     = Some {| Authorization := Some (bearer (accessToken refreshed));
               _retry := true; phase := Queued;
               retry_sets := S (retry_sets sent_request);
               reissues := S (reissues sent_request) |}
  /\ (isTokenExpiringSoon (win st1) 1001 = false ->
      sent_with (accessToken refreshed)
        (step st1 (RunRequestInterceptor 1 1001)) 1).
Proof.
  exact (reactive_refresh_retries_once far_from_expiry first_send 1
           sent_request unauthorized refreshed 1001
           eq_refl ltac:(vm_compute; reflexivity) eq_refl eq_refl eq_refl
           ltac:(vm_compute; reflexivity) eq_refl).
Defined.

Lemma server_side_sends_unauthenticated_witness :
  requests (run [Call 1; RunRequestInterceptor 1 0] (initial None)) !! 1%nat
  = Some {| Authorization := None; _retry := false; phase := InTransport;
            retry_sets := 0; reissues := 0 |}
  /\ Authorization
       {| Authorization := None; _retry := false; phase := InTransport;
          retry_sets := 0; reissues := 0 |} = None.
Proof.
  assert (requests (run [Call 1; RunRequestInterceptor 1 0] (initial None))
            !! 1%nat
          = Some {| Authorization := None; _retry := false;
                    phase := InTransport; retry_sets := 0; reissues := 0 |})
    as Hq by (vm_compute; reflexivity).
  split; [exact Hq |].
  exact (proj2 (proj2 (server_side_sends_unauthenticated
                         [Call 1; RunRequestInterceptor 1 0])) 1%nat _ Hq).
Defined.



(** After a refresh that answers with a token whose expiry does not
    decode, the send that follows starts a second exchange. *)
Example undecodable_refresh_repeats :
  let st1 :=
    run [Call 1; Call 2; RunRequestInterceptor 1 1800000;
         RefreshResponds 1 (PostOk (Some opaque_credentials)); Continue 1]
      (initial near_expiry) in
  exchanges st1 = 1%nat
  /\ isTokenExpiringSoon (win st1) 1800001 = true
  /\ exchanges (step st1 (RunRequestInterceptor 2 1800001)) = 2%nat.
Proof. repeat split; vm_compute; reflexivity. Qed.

End HttpSpec2.
